(** * A sliding-window rate limiter and its call recorder

    Shallow embedding of [RateLimit] and [API] (the C++ admission-control
    primitive and its statistics harness) together with the properties
    their specification states about them, and of the lift program of the
    same repository.

    Conventions of the embedding.
    - [uint64_t] values are [Z] in [0, 2^64); the one subtraction on them
      wraps modulo [2^64] and the wrap is written out.
    - [int] values are [Z] in [INT_MIN, INT_MAX]; signed overflow and an
      out-of-range array subscript are undefined behaviour in C++ and are
      modelled as failure ([None]) of the operation that commits them.
    - [std::array<int, HISTORY_LENGTH>] and [std::deque<int>] are [list Z].
    - The monotonic clock is an input: every call receives the value that
      [get_time_slices_since_epoch()] returns inside its critical section.
      The mutex serialises the critical sections, so a concurrent execution
      is a sequence of calls, each with its own clock reading. *)

From Stdlib Require Import ZArith Lia QArith Qround Lqa.
From stdpp Require Import base option list.

Local Open Scope Z_scope.

(** ** Machine integers *)

Definition UINT64_MOD : Z := 2 ^ 64.
Definition INT_MIN : Z := - 2 ^ 31.
Definition INT_MAX : Z := 2 ^ 31 - 1.

Definition is_uint64 (z : Z) : Prop := 0 <= z < UINT64_MOD.
Definition is_int (z : Z) : Prop := INT_MIN <= z <= INT_MAX.

(** The result of a signed [int] operation: defined only when it fits. *)
Definition int_checked (z : Z) : option Z :=
  if (INT_MIN <=? z) && (z <=? INT_MAX) then Some z else None.

(** [a[i]] as an rvalue: defined only inside the array. *)
Definition array_at (a : list Z) (i : Z) : option Z :=
  if 0 <=? i then a !! Z.to_nat i else None.

(** [a[i] = v]: defined only inside the array. *)
Definition array_store (a : list Z) (i v : Z) : option (list Z) :=
  if (0 <=? i) && (i <? Z.of_nat (length a))
  then Some (<[Z.to_nat i := v]> a) else None.

(** ** RateLimit *)

Module RateLimit.

Definition N_TIME_SLICES : Z := 1000.
Definition HISTORY_LENGTH : Z := N_TIME_SLICES + 1.

Record t : Type := mk {
  mLastUpdateSlice : Z;
  mMaxRPS : Z;
  mRequestCounters : list Z;
  mCurrentRPS : Z
}.

(** [get_time_slices_since_epoch]: the clock value in seconds, scaled
    and truncated.  The C++ code holds the seconds in a [double]; here they
    are an exact rational. *)
Definition get_time_slices_since_epoch (seconds : Q) : Z :=
  Qfloor (seconds * inject_Z N_TIME_SLICES) mod UINT64_MOD.

(** The constructor.  [now_slice] is the clock reading it takes; the
    counters and the running total are value-initialised. *)
Definition new (maxRPS : Z) (now_slice : Z) : t :=
  {| mLastUpdateSlice := now_slice;
     mMaxRPS := maxRPS;
     mRequestCounters := replicate (Z.to_nat HISTORY_LENGTH) 0;
     mCurrentRPS := 0 |}.

(** The [for] loop of [tryAquireRequestTicket]:
    [for (i = ...; i != stop; i = (i + 1) % HISTORY_LENGTH)
       { mCurrentRPS -= mRequestCounters[i]; mRequestCounters[i] = 0; }].
    [fuel] bounds the number of evaluations of the loop condition. *)
Fixpoint zero_skipped (fuel : nat) (i stop : Z) (counters : list Z) (rps : Z)
  : option (list Z * Z) :=
  match fuel with
  | O => None
  | S fuel' =>
      if i =? stop then Some (counters, rps)
      else
        x ← array_at counters i;
        rps' ← int_checked (rps - x);
        counters' ← array_store counters i 0;
        zero_skipped fuel' (Z.rem (i + 1) HISTORY_LENGTH) stop counters' rps'
  end.

Definition LOOP_FUEL : nat := Z.to_nat HISTORY_LENGTH.

(** The first half of [tryAquireRequestTicket]: the counters and the
    running total are brought up to date with the time that has passed
    since the previous call. *)
Definition update_counters (rl : t) (current_slice : Z) : option (list Z * Z) :=
  let to_index := current_slice mod HISTORY_LENGTH in
  if current_slice =? mLastUpdateSlice rl then
    Some (mRequestCounters rl, mCurrentRPS rl)
  else if (current_slice - mLastUpdateSlice rl) mod UINT64_MOD <? HISTORY_LENGTH then
    let from_index := mLastUpdateSlice rl mod HISTORY_LENGTH in
    zero_skipped LOOP_FUEL
      (Z.rem (from_index + 1) HISTORY_LENGTH)
      (Z.rem (to_index + 1) HISTORY_LENGTH)
      (mRequestCounters rl) (mCurrentRPS rl)
  else
    Some (replicate (length (mRequestCounters rl)) 0, 0).

(** [tryAquireRequestTicket], with the clock reading made explicit. *)
Definition tryAquireRequestTicket (rl : t) (current_slice : Z) : option (bool * t) :=
  let to_index := current_slice mod HISTORY_LENGTH in
  '(counters, rps) ← update_counters rl current_slice;
  if rps <? mMaxRPS rl then
    rps' ← int_checked (rps + 1);
    x ← array_at counters to_index;
    x' ← int_checked (x + 1);
    counters' ← array_store counters to_index x';
    Some (true, {| mLastUpdateSlice := current_slice;
                   mMaxRPS := mMaxRPS rl;
                   mRequestCounters := counters';
                   mCurrentRPS := rps' |})
  else
    Some (false, {| mLastUpdateSlice := current_slice;
                    mMaxRPS := mMaxRPS rl;
                    mRequestCounters := counters;
                    mCurrentRPS := rps |}).

(** A sequence of calls, one per clock reading, in the order in which
    they hold the lock. *)
Fixpoint run (rl : t) (clock : list Z) : option (list bool * t) :=
  match clock with
  | [] => Some ([], rl)
  | now :: clock' =>
      '(b, rl1) ← tryAquireRequestTicket rl now;
      '(bs, rl2) ← run rl1 clock';
      Some (b :: bs, rl2)
  end.

End RateLimit.

(** ** The history of a run, as an observer sees it *)

(** An event is a call: the clock reading it took and what it returned. *)
Definition event : Type := Z * bool.

(** Number of calls that returned [true] with a reading in [[lo, hi)]. *)
Fixpoint admitted_in (lo hi : Z) (events : list event) : Z :=
  match events with
  | [] => 0
  | (s, b) :: events' =>
      (if b && (lo <=? s) && (s <? hi) then 1 else 0) + admitted_in lo hi events'
  end.

Definition admitted_at (s : Z) (events : list event) : Z :=
  admitted_in s (s + 1) events.

(** Clock readings of a steady clock: each one at or after the previous. *)
Fixpoint steady (last : Z) (clock : list Z) : Prop :=
  match clock with
  | [] => True
  | now :: clock' => last <= now < UINT64_MOD /\ steady now clock'
  end.

Fixpoint sumZ (l : list Z) : Z :=
  match l with
  | [] => 0
  | x :: l' => x + sumZ l'
  end.

(** [sum_range f b n] is [f b + f (b + 1) + ... + f (b + n - 1)]. *)
Fixpoint sum_range (f : Z -> Z) (b : Z) (n : nat) : Z :=
  match n with
  | O => 0
  | S n' => f b + sum_range f (b + 1) n'
  end.

(** The counter that belongs to slice [s] in the circular buffer. *)
Definition slot (counters : list Z) (s : Z) : Z :=
  default 0 (counters !! Z.to_nat (s mod RateLimit.HISTORY_LENGTH)).

(** The representation invariant of a limiter: the buffer has its
    declared size, no counter is negative, the running total is the sum
    of the counters and does not exceed the cap. *)
Record rate_limit_ok (rl : RateLimit.t) : Prop := {
  ok_length : Z.of_nat (length (RateLimit.mRequestCounters rl)) = RateLimit.HISTORY_LENGTH;
  ok_counters : Forall (fun x => 0 <= x) (RateLimit.mRequestCounters rl);
  ok_sum : RateLimit.mCurrentRPS rl = sumZ (RateLimit.mRequestCounters rl);
  ok_bound : RateLimit.mCurrentRPS rl <= Z.max 0 (RateLimit.mMaxRPS rl);
  ok_max : is_int (RateLimit.mMaxRPS rl)
}.

(** The second half of [tryAquireRequestTicket] in closed form: what the
    call returns and the limiter it leaves, when the reconciliation left
    the buffer [counters] and, as running total, the sum of [counters]. *)
Definition after_call (rl : RateLimit.t) (current_slice : Z)
    (counters : list Z) : bool * RateLimit.t :=
  let to_index := current_slice mod RateLimit.HISTORY_LENGTH in
  if sumZ counters <? RateLimit.mMaxRPS rl then
    (true, RateLimit.mk current_slice (RateLimit.mMaxRPS rl)
             (<[Z.to_nat to_index := slot counters current_slice + 1]> counters)
             (sumZ counters + 1))
  else
    (false, RateLimit.mk current_slice (RateLimit.mMaxRPS rl)
              counters (sumZ counters)).

(** A limiter with cap [5] that admitted two calls in slice [100]. *)
Definition two_admitted : RateLimit.t :=
  RateLimit.mk 100 5 (<[100%nat := 2]> (replicate (Z.to_nat RateLimit.HISTORY_LENGTH) 0)) 2.

(** The answers of an exact sliding window at slice resolution: a call at
    slice [now] is admitted when fewer than [maxRPS] calls were admitted in
    the [HISTORY_LENGTH] slices that end with [now].  [past] is the
    history before the calls of [clock]. *)
Fixpoint sliding_window (maxRPS : Z) (past : list event) (clock : list Z) : list bool :=
  match clock with
  | [] => []
  | now :: clock' =>
      let b := admitted_in (now - RateLimit.HISTORY_LENGTH + 1) (now + 1) past <? maxRPS in
      b :: sliding_window maxRPS (past ++ [(now, b)]) clock'
  end.

(** The limiter [rl] holds the history [past]: no call is later than
    [mLastUpdateSlice], and the slot of each of the last [HISTORY_LENGTH]
    slices counts the calls admitted in that slice. *)
Record tracks (rl : RateLimit.t) (past : list event) : Prop := {
  tracks_ok : rate_limit_ok rl;
  tracks_last : is_uint64 (RateLimit.mLastUpdateSlice rl);
  tracks_past : Forall (fun e : event => e.1 <= RateLimit.mLastUpdateSlice rl) past;
  tracks_slots : forall s,
    RateLimit.mLastUpdateSlice rl - RateLimit.HISTORY_LENGTH < s
      <= RateLimit.mLastUpdateSlice rl ->
    slot (RateLimit.mRequestCounters rl) s = admitted_at s past
}.

(** ** API, the call recorder *)

Module API.

Record t : Type := mk {
  mSuccessfullCalls : list Z;
  mRateLimitedCalls : list Z
}.

(** The constructor: both deques start empty. *)
Definition new : t := {| mSuccessfullCalls := []; mRateLimitedCalls := [] |}.

(** [d.resize(n)] on a [std::deque<int>]: truncate, or pad with zeros. *)
Definition deque_resize (d : list Z) (n : Z) : list Z :=
  resize (Z.to_nat n) 0 d.

(** [if (time_index >= d.size()) d.resize(time_index + 1);] with
    [time_index] a [size_t], so that [time_index + 1] wraps. *)
Definition grow (d : list Z) (time_index : Z) : list Z :=
  if Z.of_nat (length d) <=? time_index
  then deque_resize d ((time_index + 1) mod UINT64_MOD)
  else d.

(** [++d[i]] *)
Definition increment (d : list Z) (i : Z) : option (list Z) :=
  x ← array_at d i;
  x' ← int_checked (x + 1);
  array_store d i x'.

(** The critical section of [call]: [called] is what the limiter
    answered and [time_index] the bucket of the call. *)
Definition record (api : t) (called : bool) (time_index : Z) : option t :=
  let successful := grow (mSuccessfullCalls api) time_index in
  let rate_limited := grow (mRateLimitedCalls api) time_index in
  if called then
    successful' ← increment successful time_index;
    Some {| mSuccessfullCalls := successful'; mRateLimitedCalls := rate_limited |}
  else
    rate_limited' ← increment rate_limited time_index;
    Some {| mSuccessfullCalls := successful; mRateLimitedCalls := rate_limited' |}.

(** [call]: the limiter is asked at clock reading [now_slice], the answer
    is recorded in bucket [time_index]. *)
Definition call (rl : RateLimit.t) (api : t) (now_slice time_index : Z)
  : option (RateLimit.t * t) :=
  '(called, rl') ← RateLimit.tryAquireRequestTicket rl now_slice;
  api' ← record api called time_index;
  Some (rl', api').

(** A sequence of recorder critical sections. *)
Fixpoint record_all (api : t) (calls : list (bool * Z)) : option t :=
  match calls with
  | [] => Some api
  | (called, time_index) :: calls' =>
      api' ← record api called time_index;
      record_all api' calls'
  end.

(** A [size_t] offset added to a deque iterator is converted to the
    iterator's signed [difference_type]. *)
Definition to_difference_type (z : Z) : Z :=
  if z <? 2 ^ 63 then z else z - UINT64_MOD.

(** [std::accumulate(d.begin() + first, d.begin() + first + n, acc)] on
    [int]s: every position read must hold an element. *)
Fixpoint accumulate_from (d : list Z) (first : Z) (n : nat) (acc : Z) : option Z :=
  match n with
  | O => Some acc
  | S n' =>
      x ← array_at d first;
      acc' ← int_checked (acc + x);
      accumulate_from d (first + 1) n' acc'
  end.

Definition accumulate (d : list Z) (first last : Z) (init : Z) : option Z :=
  if first <=? last then accumulate_from d first (Z.to_nat (last - first)) init
  else None.

(** [std::max<size_t>(0, i - 9)] with [i] a [size_t]: the subtraction
    is unsigned. *)
Definition rolling_first (i : Z) : Z :=
  Z.max 0 ((i - 9) mod UINT64_MOD).

(** The columns of row [i] of [printStat]. *)
Definition column_successful (api : t) (i : Z) : option Z :=
  array_at (mSuccessfullCalls api) i.

Definition column_rate_limited (api : t) (i : Z) : option Z :=
  array_at (mRateLimitedCalls api) i.

Definition column_rps (api : t) (i : Z) : option Z :=
  accumulate (mSuccessfullCalls api)
    (to_difference_type (rolling_first i))
    (to_difference_type i + 1) 0.

Record row : Type := mk_row {
  slice_from_ms : Z;
  slice_to_ms : Z;
  successful : Z;
  rate_limited : Z;
  rps_for_last_second : Z
}.

Definition printStat_row (api : t) (i : Z) : option row :=
  s ← column_successful api i;
  r ← column_rate_limited api i;
  a ← column_rps api i;
  Some {| slice_from_ms := (100 * i) mod UINT64_MOD;
          slice_to_ms := (100 * ((i + 1) mod UINT64_MOD)) mod UINT64_MOD;
          successful := s; rate_limited := r; rps_for_last_second := a |}.

(** [printStat]: one row per element of [mSuccessfullCalls]. *)
Definition printStat (api : t) : option (list row) :=
  mapM (printStat_row api) (seqZ 0 (Z.of_nat (length (mSuccessfullCalls api)))).

(** The rolling sum the last column is meant to show: the successes of
    bucket [i] and of the nine buckets before it. *)
Definition rolling_sum (successful : list Z) (i : Z) : Z :=
  let first := Z.max 0 (i - 9) in
  sumZ (take (Z.to_nat (i + 1 - first)) (drop (Z.to_nat first) successful)).

End API.

(** ** What a recorder should hold *)

(** Number of the [calls] that the limiter answered with [called] and
    that fell in bucket [bucket]. *)
Fixpoint count_calls (called : bool) (bucket : Z) (calls : list (bool * Z)) : Z :=
  match calls with
  | [] => 0
  | (c, i) :: calls' =>
      (if Bool.eqb c called && (i =? bucket) then 1 else 0)
      + count_calls called bucket calls'
  end.

(** Number of the [calls] that the limiter answered with [called]. *)
Fixpoint count_answers (called : bool) (calls : list (bool * Z)) : Z :=
  match calls with
  | [] => 0
  | (c, _) :: calls' =>
      (if Bool.eqb c called then 1 else 0) + count_answers called calls'
  end.

(** One more than the largest bucket index of [calls]; [0] without calls. *)
Fixpoint buckets_used (calls : list (bool * Z)) : Z :=
  match calls with
  | [] => 0
  | (_, i) :: calls' => Z.max (i + 1) (buckets_used calls')
  end.

(** [call] after [call], by one caller: each entry of [calls] is the
    reading of the limiter's clock and the bucket of one call. *)
Fixpoint call_all (rl : RateLimit.t) (api : API.t) (calls : list (Z * Z))
  : option (RateLimit.t * API.t) :=
  match calls with
  | [] => Some (rl, api)
  | (now_slice, time_index) :: calls' =>
      '(rl', api') ← API.call rl api now_slice time_index;
      call_all rl' api' calls'
  end.

(** ** The lift (lift.cpp) *)

(** The program reads floor numbers from the standard input and drives
    one lift.  What it prints is modelled as a list of messages, without
    the time stamp that starts each line; the three [double] arguments
    only set how long the program sleeps and are left out.  The standard
    input is the list of what each [std::cin >> n] will yield: the value
    left in [n] and whether [std::cin.good()] holds afterwards.  A failed
    extraction leaves [0] (or a limit of [int]) in [n] and the stream not
    good; an extraction at the end of the list is such a failure. *)

Module Lift.

Inductive lift_state_t : Type :=
  | lift_state_idle
  | lift_state_open
  | lift_state_close
  | lift_state_moving.

Record t : Type := mk {
  current_floor : Z;
  destination_floor : Z;
  lift_state : lift_state_t
}.

Inductive message : Type :=
  | Usage                  (* print_usage, on std::cerr *)
  | Waiting                (* "lift is waiting for command" *)
  | Opened                 (* "lift opened the door" *)
  | Closed                 (* "lift closed the door" *)
  | Arrived (floor : Z)    (* "lift arrived to <floor> floor" *)
  | Terminated.            (* "lift program is terminated" *)

Definition extraction : Type := Z * bool.

(** [int n = 0; std::cin >> n;] *)
Definition extract (input : list extraction) : Z * bool * list extraction :=
  match input with
  | [] => (0, false, [])
  | (n, good) :: rest => (n, good, rest)
  end.

(** One execution of the body of the [while] loop.  It returns the lift,
    the input left, whether [std::cin.good()] holds now, and what was
    printed.  Only the idle case touches [std::cin]. *)
Definition iteration (n_floors : Z) (l : t) (input : list extraction)
  : t * list extraction * bool * list message :=
  match lift_state l with
  | lift_state_idle =>
      let '(n, good, rest) := extract input in
      if (n <? 1) || (n_floors <? n) then (l, rest, good, [Waiting])
      else if current_floor l =? n then
        (mk (current_floor l) (destination_floor l) lift_state_open, rest, good, [Waiting])
      else
        (mk (current_floor l) n lift_state_moving, rest, good, [Waiting])
  | lift_state_open =>
      (mk (current_floor l) (destination_floor l) lift_state_close, input, true, [Opened])
  | lift_state_close =>
      (mk (current_floor l) (destination_floor l) lift_state_idle, input, true, [Closed])
  | lift_state_moving =>
      let floor :=
        if current_floor l <? destination_floor l then current_floor l + 1
        else if destination_floor l <? current_floor l then current_floor l - 1
        else current_floor l in
      (mk floor (destination_floor l)
          (if floor =? destination_floor l then lift_state_open else lift_state_moving),
       input, true, [Arrived floor])
  end.

(** [while (std::cin.good()) { ... }]; [fuel] bounds the number of times
    the body runs. *)
Fixpoint main_loop (fuel : nat) (n_floors : Z) (l : t) (input : list extraction)
    (good : bool) {struct fuel} : option (t * list message) :=
  if good then
    match fuel with
    | O => None
    | S fuel' =>
        let '(l1, input1, good1, out1) := iteration n_floors l input in
        '(l2, out2) ← main_loop fuel' n_floors l1 input1 good1;
        Some (l2, out1 ++ out2)
    end
  else Some (l, []).

Definition main_fuel (n_floors : Z) (input : list extraction) : nat :=
  ((1 + length input) * Z.to_nat (n_floors + 2))%nat.

(** [main]: [argc] as given, [n_floors] the value of [atoi(argv[1])].
    The result is the exit status and what was printed. *)
Definition main (argc n_floors : Z) (input : list extraction)
  : option (Z * list message) :=
  if negb (argc =? 5) then Some (1, [Usage])
  else if (n_floors <? 5) || (20 <? n_floors) then Some (1, [Usage])
  else
    '(l, out) ← main_loop (main_fuel n_floors input) n_floors
                  (mk 1 1 lift_state_idle) input true;
    Some (0, out ++ [Terminated]).

End Lift.

(** The floors a lift passes, one arrival per floor: [k] floors up or
    down from [floor]. *)
Fixpoint climb (floor : Z) (up : bool) (k : nat) : list Lift.message :=
  match k with
  | O => []
  | S k' =>
      let next := if up then floor + 1 else floor - 1 in
      Lift.Arrived next :: climb next up k'
  end.

Definition arrivals (from to : Z) : list Lift.message :=
  climb from (from <? to) (Z.to_nat (Z.abs (to - from))).

(** What a run of the lift prints before it terminates, command by
    command, and the floor it ends at: a floor number between [1] and
    [n_floors], read while the input stays good, is served by the arrivals
    on the way, the door opening and the door closing; any other number is
    passed over; the run ends with the extraction that leaves the input
    not good, whose number is not served. *)
Fixpoint session (n_floors floor : Z) (input : list Lift.extraction)
  : list Lift.message * Z :=
  match input with
  | [] => ([Lift.Waiting], floor)
  | (n, good) :: rest =>
      if negb good then ([Lift.Waiting], floor)
      else if (n <? 1) || (n_floors <? n) then
        let '(out, final) := session n_floors floor rest in
        (Lift.Waiting :: out, final)
      else
        let '(out, final) := session n_floors n rest in
        (Lift.Waiting :: arrivals floor n ++ [Lift.Opened; Lift.Closed] ++ out, final)
  end.

(** Every [Opened] of a trace is directly followed by [Closed]. *)
Fixpoint doors_closed (out : list Lift.message) : bool :=
  match out with
  | [] => true
  | Lift.Opened :: rest =>
      match rest with
      | Lift.Closed :: rest' => doors_closed rest'
      | _ => false
      end
  | _ :: rest => doors_closed rest
  end.

(** * Properties *)

(** ** Machine integers and arrays *)

Lemma int_checked_fits z : is_int z -> int_checked z = Some z.
Proof.
  unfold is_int, int_checked. intros [Hlo Hhi].
  apply Z.leb_le in Hlo. apply Z.leb_le in Hhi. by rewrite Hlo, Hhi.
Qed.

Lemma array_at_lookup (a : list Z) i :
  0 <= i -> array_at a i = a !! Z.to_nat i.
Proof. unfold array_at. intros Hi. apply Z.leb_le in Hi. by rewrite Hi. Qed.

Lemma array_store_inside (a : list Z) i v :
  0 <= i < Z.of_nat (length a) ->
  array_store a i v = Some (<[Z.to_nat i := v]> a).
Proof.
  unfold array_store. intros [Hlo Hhi].
  apply Z.leb_le in Hlo. apply Z.ltb_lt in Hhi. by rewrite Hlo, Hhi.
Qed.

Lemma lookup_inside (a : list Z) i :
  0 <= i < Z.of_nat (length a) -> exists x, a !! Z.to_nat i = Some x.
Proof.
  intros Hi. destruct (lookup_lt_is_Some_2 a (Z.to_nat i)) as [x Hx]; [lia|eauto].
Qed.

(** ** Sums *)

Lemma sumZ_cons x l : sumZ (x :: l) = x + sumZ l.
Proof. reflexivity. Qed.

Lemma sumZ_replicate n : sumZ (replicate n 0) = 0.
Proof. induction n as [|n IH]; [done|]. simpl. lia. Qed.

Lemma sumZ_nonneg l : Forall (fun x => 0 <= x) l -> 0 <= sumZ l.
Proof.
  induction 1 as [|x l Hx _ IH]; [done|]. rewrite sumZ_cons. lia.
Qed.

Lemma sumZ_insert (l : list Z) i x v :
  l !! i = Some x -> sumZ (<[i := v]> l) = sumZ l - x + v.
Proof.
  revert i. induction l as [|y l IH]; intros [|i] Hi; simplify_eq/=.
  - lia.
  - rewrite (IH _ Hi). lia.
Qed.

Lemma lookup_le_sumZ (l : list Z) i x :
  Forall (fun x => 0 <= x) l -> l !! i = Some x -> 0 <= x <= sumZ l.
Proof.
  intros Hl. revert i. induction Hl as [|y l Hy Hl IH]; intros [|i] Hi; simplify_eq/=.
  - pose proof (sumZ_nonneg l Hl). lia.
  - specialize (IH _ Hi). lia.
Qed.

Lemma Forall_nonneg_insert (l : list Z) i v :
  Forall (fun x => 0 <= x) l -> 0 <= v -> Forall (fun x => 0 <= x) (<[i := v]> l).
Proof. intros Hl Hv. by apply Forall_insert. Qed.

Lemma Forall_nonneg_replicate n : Forall (fun x : Z => 0 <= x) (replicate n 0).
Proof. apply Forall_replicate. lia. Qed.

Lemma sum_range_ext f g b n :
  (forall k, b <= k < b + Z.of_nat n -> f k = g k) ->
  sum_range f b n = sum_range g b n.
Proof.
  revert b. induction n as [|n IH]; intros b Hfg; [done|].
  simpl. rewrite Hfg by lia. rewrite IH; [done|]. intros k Hk. apply Hfg. lia.
Qed.

Lemma sum_range_snoc f b n :
  sum_range f b (S n) = sum_range f b n + f (b + Z.of_nat n).
Proof.
  revert b. induction n as [|n IH]; intros b.
  - simpl. replace (b + Z.of_nat 0) with b by lia. lia.
  - change (sum_range f b (S (S n))) with (f b + sum_range f (b + 1) (S n)).
    rewrite IH. simpl sum_range at 2.
    replace (b + 1 + Z.of_nat n) with (b + Z.of_nat (S n)) by lia. lia.
Qed.

Lemma sum_range_shift f g b b' n :
  (forall k, 0 <= k < Z.of_nat n -> f (b + k) = g (b' + k)) ->
  sum_range f b n = sum_range g b' n.
Proof.
  revert b b'. induction n as [|n IH]; intros b b' Hfg; [done|].
  simpl. f_equal.
  - specialize (Hfg 0). rewrite !Z.add_0_r in Hfg. apply Hfg. lia.
  - apply IH. intros k Hk. specialize (Hfg (1 + k)).
    rewrite !Z.add_assoc in Hfg. apply Hfg. lia.
Qed.

(** ** The circular buffer *)

Section Buffer.
Import RateLimit.

Lemma HISTORY_LENGTH_eq : HISTORY_LENGTH = 1001.
Proof. reflexivity. Qed.

Ltac ring_index :=
  rewrite ?HISTORY_LENGTH_eq in *; unfold N_TIME_SLICES in *;
  Z.div_mod_to_equations; lia.

Lemma rem_index i : 0 <= i -> Z.rem i HISTORY_LENGTH = i mod HISTORY_LENGTH.
Proof. intros Hi. apply Z.rem_mod_nonneg; [done|]. ring_index. Qed.

Lemma index_range s : 0 <= s mod HISTORY_LENGTH < HISTORY_LENGTH.
Proof. apply Z.mod_pos_bound. ring_index. Qed.

Lemma slot_index (c : list Z) i :
  0 <= i < HISTORY_LENGTH -> slot c i = default 0 (c !! Z.to_nat i).
Proof. intros Hi. unfold slot. by rewrite Z.mod_small. Qed.

Lemma slot_period (c : list Z) s : slot c (s + HISTORY_LENGTH) = slot c s.
Proof.
  unfold slot. do 2 f_equal. f_equal.
  rewrite <- (Z.mul_1_l HISTORY_LENGTH) at 1. apply Z.mod_add. ring_index.
Qed.

(** The loop zeroes the slots [i], [i + 1], ... up to the one before
    [stop], going round the buffer, and takes what they held off the
    running total; it ends within [HISTORY_LENGTH] tests of its
    condition. *)
Lemma zero_skipped_spec fuel : forall i stop (c : list Z),
  Z.of_nat (length c) = HISTORY_LENGTH ->
  Forall (fun x => 0 <= x) c ->
  sumZ c <= INT_MAX ->
  0 <= i < HISTORY_LENGTH -> 0 <= stop < HISTORY_LENGTH ->
  (stop - i) mod HISTORY_LENGTH < Z.of_nat fuel ->
  exists c',
    zero_skipped fuel i stop c (sumZ c) = Some (c', sumZ c') /\
    length c' = length c /\
    Forall (fun x => 0 <= x) c' /\
    sumZ c' = sumZ c
              - sum_range (slot c) i (Z.to_nat ((stop - i) mod HISTORY_LENGTH)) /\
    (forall j, 0 <= j < HISTORY_LENGTH ->
       c' !! Z.to_nat j =
       if (j - i) mod HISTORY_LENGTH <? (stop - i) mod HISTORY_LENGTH
       then Some 0 else c !! Z.to_nat j).
Proof.
  induction fuel as [|fuel IH]; intros i stop c Hlen Hpos Hmax Hi Hstop Hfuel.
  { pose proof (index_range (stop - i)). lia. }
  cbn [zero_skipped]. destruct (Z.eqb_spec i stop) as [->|Hne].
  - exists c. rewrite Z.sub_diag, Z.mod_0_l by ring_index.
    repeat split; [done|simpl; lia|]. intros j Hj.
    destruct (Z.ltb_spec ((j - stop) mod HISTORY_LENGTH) 0) as [Hlt|_]; [|done].
    pose proof (index_range (j - stop)). lia.
  - destruct (lookup_inside c i) as [x Hx]; [lia|].
    pose proof (lookup_le_sumZ _ _ _ Hpos Hx) as Hxs.
    rewrite array_at_lookup, Hx by lia. cbn [mbind option_bind].
    rewrite int_checked_fits by (unfold is_int, INT_MIN, INT_MAX in *; lia).
    cbn [mbind option_bind].
    rewrite array_store_inside by lia. cbn [mbind option_bind].
    rewrite rem_index by lia.
    set (c1 := <[Z.to_nat i := 0]> c).
    assert (Hsum1 : sumZ c1 = sumZ c - x).
    { unfold c1. rewrite (sumZ_insert _ _ _ _ Hx). lia. }
    rewrite <- Hsum1.
    assert (Hdist : (stop - (i + 1) mod HISTORY_LENGTH) mod HISTORY_LENGTH
                    = (stop - i) mod HISTORY_LENGTH - 1) by ring_index.
    destruct (IH ((i + 1) mod HISTORY_LENGTH) stop c1) as (c' & Hrun & Hlen' & Hpos' & Hsum' & Hslots).
    { unfold c1. rewrite length_insert. done. }
    { unfold c1. by apply Forall_nonneg_insert. }
    { lia. }
    { apply index_range. }
    { done. }
    { lia. }
    exists c'. split; [done|]. split; [by rewrite Hlen'; unfold c1; rewrite length_insert|].
    split; [done|]. split.
    + rewrite Hsum', Hsum1, Hdist.
      replace (Z.to_nat ((stop - i) mod HISTORY_LENGTH))
        with (S (Z.to_nat ((stop - i) mod HISTORY_LENGTH - 1))) by ring_index.
      cbn [sum_range]. rewrite (slot_index c i), Hx by done. cbn [default from_option id].
      rewrite (sum_range_shift (slot c1) (slot c) _ (i + 1)); [lia|].
      intros k Hk. unfold slot, c1.
      replace (((i + 1) mod HISTORY_LENGTH + k) mod HISTORY_LENGTH)
        with ((i + 1 + k) mod HISTORY_LENGTH) by ring_index.
      rewrite list_lookup_insert_ne; [done|]. ring_index.
    + intros j Hj. rewrite (Hslots j Hj), Hdist. unfold c1.
      destruct (decide (j = i)) as [->|Hji].
      * rewrite list_lookup_insert_eq by lia.
        replace ((i - (i + 1) mod HISTORY_LENGTH) mod HISTORY_LENGTH)
          with (HISTORY_LENGTH - 1) by ring_index.
        rewrite Z.sub_diag, Z.mod_0_l by ring_index.
        destruct (Z.ltb_spec (HISTORY_LENGTH - 1) ((stop - i) mod HISTORY_LENGTH - 1));
          destruct (Z.ltb_spec 0 ((stop - i) mod HISTORY_LENGTH)); try done; ring_index.
      * rewrite list_lookup_insert_ne by lia.
        replace ((j - (i + 1) mod HISTORY_LENGTH) mod HISTORY_LENGTH)
          with ((j - i) mod HISTORY_LENGTH - 1) by ring_index.
        destruct (Z.ltb_spec ((j - i) mod HISTORY_LENGTH - 1) ((stop - i) mod HISTORY_LENGTH - 1));
          destruct (Z.ltb_spec ((j - i) mod HISTORY_LENGTH) ((stop - i) mod HISTORY_LENGTH));
          try done; lia.
Qed.

Lemma slot_nonneg (c : list Z) s :
  Forall (fun x => 0 <= x) c -> 0 <= slot c s.
Proof.
  intros Hc. unfold slot.
  destruct (c !! Z.to_nat (s mod HISTORY_LENGTH)) as [x|] eqn:Hx; [|done].
  simpl. by apply (lookup_le_sumZ _ _ _ Hc Hx).
Qed.

Lemma sum_range_nonneg f b n :
  (forall k, 0 <= f k) -> 0 <= sum_range f b n.
Proof.
  intros Hf. revert b. induction n as [|n IH]; intros b; simpl; [lia|].
  specialize (Hf b). specialize (IH (b + 1)). lia.
Qed.

Lemma all_zero (l : list Z) :
  Forall (fun x => 0 <= x) l -> sumZ l = 0 -> l = replicate (length l) 0.
Proof.
  induction 1 as [|x l Hx Hl IH]; [done|]. simpl. intros Hsum.
  pose proof (sumZ_nonneg l Hl). rewrite <- IH by lia. f_equal. lia.
Qed.

(** Reconciliation never fails on a limiter that satisfies its
    invariant, whatever the clock reads; it keeps the invariant and only
    lowers counters. *)
Lemma update_counters_ok rl current_slice :
  rate_limit_ok rl ->
  exists c',
    update_counters rl current_slice = Some (c', sumZ c') /\
    length c' = length (mRequestCounters rl) /\
    Forall (fun x => 0 <= x) c' /\
    sumZ c' <= sumZ (mRequestCounters rl).
Proof.
  intros [Hlen Hpos Hsum Hbound Hmax]. unfold update_counters.
  destruct (Z.eqb_spec current_slice (mLastUpdateSlice rl)) as [_|_].
  { exists (mRequestCounters rl). rewrite Hsum. repeat split; [done|lia]. }
  destruct (Z.ltb_spec ((current_slice - mLastUpdateSlice rl) mod UINT64_MOD) HISTORY_LENGTH)
    as [_|_].
  - rewrite !rem_index by (pose proof (index_range (mLastUpdateSlice rl));
                           pose proof (index_range current_slice); lia).
    rewrite Hsum.
    destruct (zero_skipped_spec LOOP_FUEL
                ((mLastUpdateSlice rl mod HISTORY_LENGTH + 1) mod HISTORY_LENGTH)
                ((current_slice mod HISTORY_LENGTH + 1) mod HISTORY_LENGTH)
                (mRequestCounters rl))
      as (c' & Hrun & Hlen' & Hpos' & Hsum' & _);
      [done|done| |apply index_range|apply index_range| |].
    + unfold is_int, INT_MAX in *. lia.
    + unfold LOOP_FUEL.
      pose proof (index_range
        ((current_slice mod HISTORY_LENGTH + 1) mod HISTORY_LENGTH
         - (mLastUpdateSlice rl mod HISTORY_LENGTH + 1) mod HISTORY_LENGTH)).
      lia.
    + exists c'. repeat split; [done..|].
      rewrite Hsum'.
      pose proof (sum_range_nonneg (slot (mRequestCounters rl))
        ((mLastUpdateSlice rl mod HISTORY_LENGTH + 1) mod HISTORY_LENGTH)
        (Z.to_nat
           (((current_slice mod HISTORY_LENGTH + 1) mod HISTORY_LENGTH
             - (mLastUpdateSlice rl mod HISTORY_LENGTH + 1) mod HISTORY_LENGTH)
            mod HISTORY_LENGTH))
        (fun k => slot_nonneg _ k Hpos)).
      lia.
  - exists (replicate (length (mRequestCounters rl)) 0).
    rewrite sumZ_replicate, length_replicate.
    repeat split; [apply Forall_nonneg_replicate|by apply sumZ_nonneg].
Qed.

(** One call, on a limiter that satisfies its invariant: it returns, and
    what it returns is [after_call] of the reconciled buffer. *)
Lemma tryAquireRequestTicket_step rl current_slice :
  rate_limit_ok rl ->
  exists c',
    update_counters rl current_slice = Some (c', sumZ c') /\
    length c' = length (mRequestCounters rl) /\
    Forall (fun x => 0 <= x) c' /\
    sumZ c' <= sumZ (mRequestCounters rl) /\
    tryAquireRequestTicket rl current_slice = Some (after_call rl current_slice c').
Proof.
  intros Hok. destruct (update_counters_ok rl current_slice Hok)
    as (c' & Hupd & Hlen' & Hpos' & Hle).
  exists c'. repeat split; [done..|].
  destruct Hok as [Hlen Hpos Hsum Hbound Hmax].
  unfold tryAquireRequestTicket, after_call. rewrite Hupd. cbn [mbind option_bind].
  destruct (Z.ltb_spec (sumZ c') (mMaxRPS rl)) as [Hlt|_]; [|done].
  pose proof (sumZ_nonneg c' Hpos') as Hge.
  pose proof (index_range current_slice) as Hidx.
  destruct (lookup_inside c' (current_slice mod HISTORY_LENGTH)) as [x Hx]; [lia|].
  pose proof (lookup_le_sumZ _ _ _ Hpos' Hx) as Hxs.
  rewrite int_checked_fits by (unfold is_int, INT_MIN, INT_MAX in *; lia).
  cbn [mbind option_bind]. rewrite array_at_lookup, Hx by lia.
  cbn [mbind option_bind].
  rewrite int_checked_fits by (unfold is_int, INT_MIN, INT_MAX in *; lia).
  cbn [mbind option_bind]. rewrite array_store_inside by lia.
  cbn [mbind option_bind]. unfold slot. rewrite Hx. done.
Qed.

Lemma after_call_ok rl current_slice (c' : list Z) :
  rate_limit_ok rl ->
  length c' = length (mRequestCounters rl) ->
  Forall (fun x => 0 <= x) c' ->
  sumZ c' <= sumZ (mRequestCounters rl) ->
  rate_limit_ok (after_call rl current_slice c').2 /\
  mMaxRPS (after_call rl current_slice c').2 = mMaxRPS rl /\
  mLastUpdateSlice (after_call rl current_slice c').2 = current_slice.
Proof.
  intros [Hlen Hpos Hsum Hbound Hmax] Hlen' Hpos' Hle. unfold after_call.
  pose proof (index_range current_slice) as Hidx.
  destruct (Z.ltb_spec (sumZ c') (mMaxRPS rl)) as [Hlt|Hge]; cbn [snd].
  - split; [|done].
    constructor; cbn [mRequestCounters mCurrentRPS mMaxRPS mLastUpdateSlice].
    + rewrite length_insert. lia.
    + apply Forall_nonneg_insert; [done|].
      pose proof (slot_nonneg c' current_slice Hpos'). lia.
    + destruct (lookup_inside c' (current_slice mod HISTORY_LENGTH)) as [x Hx]; [lia|].
      rewrite (sumZ_insert _ _ _ _ Hx). unfold slot. rewrite Hx. simpl. lia.
    + lia.
    + done.
  - split; [|done].
    constructor; cbn [mRequestCounters mCurrentRPS mMaxRPS mLastUpdateSlice];
      [lia|done|done|lia|done].
Qed.

Lemma new_ok maxRPS now_slice : is_int maxRPS -> rate_limit_ok (new maxRPS now_slice).
Proof.
  intros HM. constructor; cbn [new mRequestCounters mCurrentRPS mMaxRPS].
  - rewrite length_replicate. ring_index.
  - apply Forall_nonneg_replicate.
  - by rewrite sumZ_replicate.
  - lia.
  - done.
Qed.

Lemma tryAquireRequestTicket_ok rl current_slice :
  rate_limit_ok rl ->
  exists b rl',
    tryAquireRequestTicket rl current_slice = Some (b, rl') /\
    rate_limit_ok rl' /\ mMaxRPS rl' = mMaxRPS rl /\
    mLastUpdateSlice rl' = current_slice.
Proof.
  intros Hok.
  destruct (tryAquireRequestTicket_step rl current_slice Hok)
    as (c' & _ & Hlen & Hpos & Hle & Hcall).
  destruct (after_call_ok rl current_slice c' Hok Hlen Hpos Hle) as (Hok' & HM & Hlast).
  destruct (after_call rl current_slice c') as [b rl'] eqn:Hafter.
  exists b, rl'. by rewrite Hcall.
Qed.

(** Every sequence of calls runs to its end, whatever the clock reads,
    and leaves a limiter that satisfies the invariant. *)
Lemma run_ok clock : forall rl,
  rate_limit_ok rl ->
  exists bs rl',
    run rl clock = Some (bs, rl') /\
    rate_limit_ok rl' /\ mMaxRPS rl' = mMaxRPS rl /\ length bs = length clock.
Proof.
  induction clock as [|now clock IH]; intros rl Hok.
  { exists [], rl. done. }
  destruct (tryAquireRequestTicket_ok rl now Hok) as (b & rl1 & Hcall & Hok1 & HM1 & _).
  destruct (IH rl1 Hok1) as (bs & rl2 & Hrun & Hok2 & HM2 & Hlen).
  exists (b :: bs), rl2. cbn [run]. rewrite Hcall. cbn [mbind option_bind].
  rewrite Hrun. cbn [mbind option_bind].
  split; [done|]. split; [done|]. split; [congruence|].
  simpl. by rewrite Hlen.
Qed.

(** The limiter with [k] admissions, all of them in slice [s]. *)
Lemma run_same_slice n : forall maxRPS s k,
  is_int maxRPS -> 0 <= k -> k + Z.of_nat n <= maxRPS ->
  run (mk s maxRPS (<[Z.to_nat (s mod HISTORY_LENGTH) := k]>
                      (replicate (Z.to_nat HISTORY_LENGTH) 0)) k)
      (replicate n s)
  = Some (replicate n true,
          mk s maxRPS (<[Z.to_nat (s mod HISTORY_LENGTH) := k + Z.of_nat n]>
                         (replicate (Z.to_nat HISTORY_LENGTH) 0))
             (k + Z.of_nat n)).
Proof.
  induction n as [|n IH]; intros maxRPS s k HM Hk Hle.
  { cbn [replicate run]. by rewrite Z.add_0_r. }
  pose proof (index_range s) as Hidx.
  cbn [replicate run]. unfold tryAquireRequestTicket, update_counters.
  cbn [mLastUpdateSlice mRequestCounters mCurrentRPS mMaxRPS].
  rewrite Z.eqb_refl. cbn [mbind option_bind].
  destruct (Z.ltb_spec k maxRPS) as [_|]; [|lia].
  rewrite int_checked_fits by (unfold is_int, INT_MIN, INT_MAX in *; lia).
  cbn [mbind option_bind]. rewrite array_at_lookup by lia.
  rewrite list_lookup_insert_eq by (rewrite length_replicate; lia).
  cbn [mbind option_bind].
  rewrite int_checked_fits by (unfold is_int, INT_MIN, INT_MAX in *; lia).
  cbn [mbind option_bind].
  rewrite array_store_inside by (rewrite length_insert, length_replicate; lia).
  cbn [mbind option_bind]. rewrite list_insert_insert_eq.
  rewrite (IH maxRPS s (k + 1)) by (done || lia). cbn [mbind option_bind].
  replace (k + 1 + Z.of_nat n) with (k + Z.of_nat (S n)) by lia. done.
Qed.

Lemma new_as_insert maxRPS s :
  new maxRPS s = mk s maxRPS (<[Z.to_nat (s mod HISTORY_LENGTH) := 0]>
                                (replicate (Z.to_nat HISTORY_LENGTH) 0)) 0.
Proof.
  unfold new. f_equal. symmetry. apply list_insert_id.
  apply lookup_replicate_2. pose proof (index_range s). lia.
Qed.

Lemma steady_replicate s n : is_uint64 s -> steady s (replicate n s).
Proof.
  intros Hs. induction n as [|n IH]; [done|]. simpl. unfold is_uint64 in Hs. split; [lia|done].
Qed.

(** ** The running total *)

(** C2. Take a limiter with a non-negative cap.  After any sequence of
    calls, whatever the clock read at each, the running total
    [mCurrentRPS] is the sum of all the counters and is at most the cap;
    and when the cap is positive some sequence of calls, with a steady
    clock, makes the running total equal to the cap. *)
Theorem running_total_is_sum_and_capped maxRPS now_slice :
  is_int maxRPS -> 0 <= maxRPS -> is_uint64 now_slice ->
  (forall clock, exists bs rl,
      run (new maxRPS now_slice) clock = Some (bs, rl) /\
      mCurrentRPS rl = sumZ (mRequestCounters rl) /\
      mCurrentRPS rl <= maxRPS) /\
  (0 < maxRPS -> exists clock bs rl,
      steady now_slice clock /\
      run (new maxRPS now_slice) clock = Some (bs, rl) /\
      mCurrentRPS rl = sumZ (mRequestCounters rl) /\
      mCurrentRPS rl = maxRPS).
Proof.
  intros HM Hpos Hnow. split.
  - intros clock.
    destruct (run_ok clock (new maxRPS now_slice) (new_ok _ _ HM))
      as (bs & rl & Hrun & [_ _ Hsum Hbound _] & HM' & _).
    exists bs, rl. cbn [new mMaxRPS] in HM'. rewrite HM' in Hbound.
    split; [done|]. split; [done|lia].
  - intros _. exists (replicate (Z.to_nat maxRPS) now_slice).
    pose proof (run_same_slice (Z.to_nat maxRPS) maxRPS now_slice 0 HM) as Hrun.
    rewrite <- new_as_insert in Hrun. rewrite Hrun by lia.
    eexists _, _. split; [by apply steady_replicate|]. split; [done|].
    cbn [mCurrentRPS mRequestCounters]. split; [|lia].
    pose proof (index_range now_slice) as Hidx.
    rewrite (sumZ_insert _ _ 0), sumZ_replicate; [lia|].
    apply lookup_replicate_2. lia.
Qed.

Lemma running_total_is_sum_and_capped_witness :
  (forall clock, exists bs rl,
      run (new 2 7) clock = Some (bs, rl) /\
      mCurrentRPS rl = sumZ (mRequestCounters rl) /\
      mCurrentRPS rl <= 2) /\
  (exists clock bs rl,
      steady 7 clock /\
      run (new 2 7) clock = Some (bs, rl) /\
      mCurrentRPS rl = sumZ (mRequestCounters rl) /\
      mCurrentRPS rl = 2).
Proof.
  destruct (running_total_is_sum_and_capped 2 7) as [Halways Hreached].
  - unfold is_int, INT_MIN, INT_MAX. lia.
  - lia.
  - unfold is_uint64, UINT64_MOD. lia.
  - split; [exact Halways|]. apply Hreached. lia.
Defined.

(** ** Denial *)

Lemma denied_call rl current_slice rl' :
  tryAquireRequestTicket rl current_slice = Some (false, rl') ->
  exists counters rps,
    update_counters rl current_slice = Some (counters, rps) /\
    mMaxRPS rl <= rps /\
    rl' = mk current_slice (mMaxRPS rl) counters rps.
Proof.
  unfold tryAquireRequestTicket.
  destruct (update_counters rl current_slice) as [[counters rps]|]; [|done].
  cbn [mbind option_bind].
  destruct (Z.ltb_spec rps (mMaxRPS rl)) as [_|Hge].
  - destruct (int_checked (rps + 1)); [|done]. cbn [mbind option_bind].
    destruct (array_at counters _) as [x|]; [|done]. cbn [mbind option_bind].
    destruct (int_checked (x + 1)); [|done]. cbn [mbind option_bind].
    destruct (array_store counters _ _); [|done]. cbn [mbind option_bind].
    intros [=].
  - intros [= <-]. by exists counters, rps.
Qed.

Lemma denied_in_place rl :
  mCurrentRPS rl = mMaxRPS rl ->
  tryAquireRequestTicket rl (mLastUpdateSlice rl) = Some (false, rl).
Proof.
  destruct rl as [last maxRPS counters rps].
  cbn [mCurrentRPS mMaxRPS mLastUpdateSlice]. intros ->.
  unfold tryAquireRequestTicket, update_counters.
  cbn [mCurrentRPS mMaxRPS mLastUpdateSlice mRequestCounters].
  rewrite Z.eqb_refl. cbn [mbind option_bind]. by rewrite Z.ltb_irrefl.
Qed.

(** C5. A call that returns [false] leaves the limiter exactly as the
    reconciliation with the clock left it: the reconciled counters, the
    reconciled running total, and the new [mLastUpdateSlice]; nothing is
    incremented.  In particular, when the running total equals the cap and
    the clock still reads the slice of the previous call, any number of
    further calls all return [false] and leave the whole limiter, the
    running total and every counter, as it was. *)
Theorem denial_changes_only_bookkeeping rl current_slice rl' n :
  (tryAquireRequestTicket rl current_slice = Some (false, rl') ->
   exists counters rps,
     update_counters rl current_slice = Some (counters, rps) /\
     rl' = mk current_slice (mMaxRPS rl) counters rps) /\
  (mCurrentRPS rl = mMaxRPS rl ->
   run rl (replicate n (mLastUpdateSlice rl)) = Some (replicate n false, rl) /\
   mCurrentRPS rl <= mMaxRPS rl).
Proof.
  split.
  - intros Hcall.
    destruct (denied_call _ _ _ Hcall) as (counters & rps & Hupd & _ & ->).
    by exists counters, rps.
  - intros Hfull. split; [|lia]. induction n as [|n IH]; [done|].
    cbn [replicate run]. rewrite (denied_in_place rl Hfull). cbn [mbind option_bind].
    rewrite IH. done.
Qed.

Lemma denial_changes_only_bookkeeping_witness :
  let full := mk 40 1 (<[40%nat := 1]> (replicate 1001 0)) 1 in
  (exists counters rps,
     update_counters full 45 = Some (counters, rps) /\
     mk 45 1 (<[40%nat := 1]> (replicate 1001 0)) 1 = mk 45 (mMaxRPS full) counters rps) /\
  (run full (replicate 3 (mLastUpdateSlice full)) = Some (replicate 3 false, full) /\
   mCurrentRPS full <= mMaxRPS full).
Proof.
  intros full.
  destruct (denial_changes_only_bookkeeping full 45
              (mk 45 1 (<[40%nat := 1]> (replicate 1001 0)) 1) 3) as [Hdenied Hrepeat].
  split; [apply Hdenied; vm_compute; reflexivity|apply Hrepeat; reflexivity].
Defined.

(** ** A cap of zero or less *)

Lemma empty_limiter_denies maxRPS : forall clock last,
  is_int maxRPS -> maxRPS <= 0 ->
  run (new maxRPS last) clock
  = Some (replicate (length clock) false, new maxRPS (default last (list.last clock))).
Proof.
  induction clock as [|now clock IH]; intros last HM Hle; [done|].
  cbn [run length replicate].
  pose proof (new_ok maxRPS last HM) as Hok.
  destruct (tryAquireRequestTicket_step (new maxRPS last) now Hok)
    as (c' & _ & Hlen & Hpos & Hsum & ->).
  cbn [new mRequestCounters] in Hlen, Hsum. rewrite sumZ_replicate in Hsum.
  pose proof (sumZ_nonneg c' Hpos) as Hge.
  assert (Hzero : sumZ c' = 0) by lia.
  pose proof (all_zero c' Hpos Hzero) as Hc'.
  rewrite Hlen, length_replicate in Hc'.
  unfold after_call. rewrite Hzero. cbn [new mMaxRPS].
  destruct (Z.ltb_spec 0 maxRPS) as [|_]; [lia|].
  cbn [mbind option_bind]. rewrite Hc'. fold (new maxRPS now).
  rewrite (IH now HM Hle). cbn [mbind option_bind].
  rewrite last_cons. by destruct (list.last clock).
Qed.

(** C6. A limiter constructed with a cap of [0] answers [false] to every
    call of every sequence of calls, whatever the clock reads at each of
    them (so for any elapsed time between them). *)
Theorem zero_limit_always_denies now_slice clock :
  fst <$> run (new 0 now_slice) clock = Some (replicate (length clock) false).
Proof.
  rewrite (empty_limiter_denies 0 clock now_slice); [done| |lia].
  unfold is_int, INT_MIN, INT_MAX. lia.
Qed.

(** C9. The constructor takes any [int], negative ones too.  With a
    negative cap every call of every sequence of calls returns [false],
    and the limiter goes through the same counters, running total and
    [mLastUpdateSlice] as the limiter with cap [0] does on the same
    clock readings. *)
Theorem negative_limit_behaves_as_zero maxRPS now_slice clock :
  is_int maxRPS -> maxRPS < 0 ->
  exists rl rl0,
    run (new maxRPS now_slice) clock = Some (replicate (length clock) false, rl) /\
    run (new 0 now_slice) clock = Some (replicate (length clock) false, rl0) /\
    mRequestCounters rl = mRequestCounters rl0 /\
    mCurrentRPS rl = mCurrentRPS rl0 /\
    mLastUpdateSlice rl = mLastUpdateSlice rl0.
Proof.
  intros HM Hneg.
  rewrite (empty_limiter_denies maxRPS clock now_slice) by (done || lia).
  rewrite (empty_limiter_denies 0 clock now_slice)
    by (unfold is_int, INT_MIN, INT_MAX; lia).
  eexists _, _. done.
Qed.

Lemma negative_limit_behaves_as_zero_witness :
  exists rl rl0,
    run (new (-5) 100) [100; 100; 2500] = Some (replicate 3 false, rl) /\
    run (new 0 100) [100; 100; 2500] = Some (replicate 3 false, rl0) /\
    mRequestCounters rl = mRequestCounters rl0 /\
    mCurrentRPS rl = mCurrentRPS rl0 /\
    mLastUpdateSlice rl = mLastUpdateSlice rl0.
Proof.
  apply (negative_limit_behaves_as_zero (-5) 100 [100; 100; 2500]);
    unfold is_int, INT_MIN, INT_MAX; lia.
Defined.

(** ** Reconciliation with the clock *)

(** The middle branch, with a steady clock: the slots of the slices after
    [mLastUpdateSlice] up to the current one are zeroed, the others are
    kept. *)
Lemma update_counters_recent rl current_slice :
  rate_limit_ok rl ->
  is_uint64 (mLastUpdateSlice rl) ->
  mLastUpdateSlice rl < current_slice < UINT64_MOD ->
  current_slice - mLastUpdateSlice rl < HISTORY_LENGTH ->
  exists c',
    update_counters rl current_slice = Some (c', sumZ c') /\
    sumZ c' = mCurrentRPS rl
              - sum_range (slot (mRequestCounters rl)) (mLastUpdateSlice rl + 1)
                  (Z.to_nat (current_slice - mLastUpdateSlice rl)) /\
    (forall j, 0 <= j < HISTORY_LENGTH ->
       c' !! Z.to_nat j =
       if (j - (mLastUpdateSlice rl + 1)) mod HISTORY_LENGTH
          <? current_slice - mLastUpdateSlice rl
       then Some 0 else mRequestCounters rl !! Z.to_nat j).
Proof.
  intros [Hlen Hpos Hsum Hbound Hmax] Hlast Hnow Hrecent.
  destruct rl as [last maxRPS c rps].
  cbn [mLastUpdateSlice mMaxRPS mRequestCounters mCurrentRPS] in *.
  unfold update_counters. cbn [mLastUpdateSlice mRequestCounters mCurrentRPS].
  destruct (Z.eqb_spec current_slice last) as [|_]; [lia|].
  rewrite (Z.mod_small (current_slice - last))
    by (unfold is_uint64, UINT64_MOD in *; lia).
  destruct (Z.ltb_spec (current_slice - last) HISTORY_LENGTH) as [_|]; [|lia].
  pose proof (index_range last) as Hfrom.
  pose proof (index_range current_slice) as Hto.
  rewrite !rem_index by lia. rewrite Hsum.
  set (i := (last mod HISTORY_LENGTH + 1) mod HISTORY_LENGTH).
  set (stop := (current_slice mod HISTORY_LENGTH + 1) mod HISTORY_LENGTH).
  assert (Hdist : (stop - i) mod HISTORY_LENGTH = current_slice - last)
    by (unfold i, stop; ring_index).
  destruct (zero_skipped_spec LOOP_FUEL i stop c)
    as (c' & Hrun & _ & _ & Hsum' & Hslots);
    [done|done| |apply index_range|apply index_range| |].
  { unfold is_int, INT_MAX in *. lia. }
  { unfold LOOP_FUEL. lia. }
  exists c'. split; [done|]. rewrite Hdist in Hsum', Hslots. split.
  - rewrite Hsum'. f_equal. apply sum_range_shift. intros k Hk.
    unfold slot. do 3 f_equal. unfold i. ring_index.
  - intros j Hj. rewrite (Hslots j Hj).
    replace ((j - i) mod HISTORY_LENGTH)
      with ((j - (last + 1)) mod HISTORY_LENGTH); [done|].
    unfold i. ring_index.
Qed.

(** The last branch, with a steady clock: everything is zeroed. *)
Lemma update_counters_idle rl current_slice :
  rate_limit_ok rl ->
  is_uint64 (mLastUpdateSlice rl) ->
  current_slice < UINT64_MOD ->
  HISTORY_LENGTH <= current_slice - mLastUpdateSlice rl ->
  update_counters rl current_slice = Some (replicate (Z.to_nat HISTORY_LENGTH) 0, 0).
Proof.
  intros [Hlen _ _ _ _] Hlast Hnow Hidle. unfold update_counters.
  destruct (Z.eqb_spec current_slice (mLastUpdateSlice rl)) as [|_]; [ring_index|].
  rewrite (Z.mod_small (current_slice - mLastUpdateSlice rl))
    by (unfold is_uint64, UINT64_MOD in *; ring_index).
  destruct (Z.ltb_spec (current_slice - mLastUpdateSlice rl) HISTORY_LENGTH) as [|_]; [lia|].
  by replace (length (mRequestCounters rl)) with (Z.to_nat HISTORY_LENGTH) by lia.
Qed.

(** C4. With a steady clock, the reconciliation at the start of every
    call (on a limiter that satisfies its invariant) returns and does
    exactly one of three things.  When the current slice equals
    [mLastUpdateSlice], the counters and the running total are unchanged.
    Otherwise, when fewer than [HISTORY_LENGTH] slices have passed, the
    slot of every slice after [mLastUpdateSlice] up to and including the
    current one is zero afterwards, every other slot is unchanged, and the
    running total is lowered by what the zeroed slots held.  Otherwise
    every slot is zero and the running total is [0]. *)
Theorem reconciliation_by_cases rl current_slice :
  rate_limit_ok rl ->
  is_uint64 (mLastUpdateSlice rl) ->
  mLastUpdateSlice rl <= current_slice < UINT64_MOD ->
  exists counters rps,
    update_counters rl current_slice = Some (counters, rps) /\
    (current_slice = mLastUpdateSlice rl ->
       counters = mRequestCounters rl /\ rps = mCurrentRPS rl) /\
    (current_slice <> mLastUpdateSlice rl ->
     current_slice - mLastUpdateSlice rl < HISTORY_LENGTH ->
       (forall s, mLastUpdateSlice rl < s <= current_slice ->
          array_at counters (s mod HISTORY_LENGTH) = Some 0) /\
       (forall j, 0 <= j < HISTORY_LENGTH ->
          (forall s, mLastUpdateSlice rl < s <= current_slice ->
             s mod HISTORY_LENGTH <> j) ->
          array_at counters j = array_at (mRequestCounters rl) j) /\
       rps = mCurrentRPS rl
             - sum_range (slot (mRequestCounters rl)) (mLastUpdateSlice rl + 1)
                 (Z.to_nat (current_slice - mLastUpdateSlice rl))) /\
    (HISTORY_LENGTH <= current_slice - mLastUpdateSlice rl ->
       counters = replicate (Z.to_nat HISTORY_LENGTH) 0 /\ rps = 0).
Proof.
  intros Hok Hlast Hnow.
  destruct (Z.eq_dec current_slice (mLastUpdateSlice rl)) as [Heq|Hne].
  { exists (mRequestCounters rl), (mCurrentRPS rl). unfold update_counters.
    rewrite Heq, Z.eqb_refl. split; [done|]. split; [done|].
    split; [done|]. intros Hfar. ring_index. }
  destruct (Z.lt_ge_cases (current_slice - mLastUpdateSlice rl) HISTORY_LENGTH)
    as [Hrecent|Hfar].
  - destruct (update_counters_recent rl current_slice Hok Hlast) as (c' & Hupd & Hsum & Hslots);
      [lia|done|].
    exists c', (sumZ c'). split; [done|]. split; [done|]. split; [|lia].
    intros _ _. split; [|split; [|done]].
    + intros s Hs. pose proof (index_range s) as Hidx.
      rewrite array_at_lookup, Hslots by lia.
      destruct (Z.ltb_spec ((s mod HISTORY_LENGTH - (mLastUpdateSlice rl + 1)) mod HISTORY_LENGTH)
                  (current_slice - mLastUpdateSlice rl)) as [_|Hge]; [done|].
      ring_index.
    + intros j Hj Hother. rewrite !array_at_lookup, Hslots by lia.
      destruct (Z.ltb_spec ((j - (mLastUpdateSlice rl + 1)) mod HISTORY_LENGTH)
                  (current_slice - mLastUpdateSlice rl)) as [Hlt|_]; [|done].
      exfalso.
      apply (Hother (mLastUpdateSlice rl + 1
                     + (j - (mLastUpdateSlice rl + 1)) mod HISTORY_LENGTH)).
      * pose proof (index_range (j - (mLastUpdateSlice rl + 1))). lia.
      * ring_index.
  - exists (replicate (Z.to_nat HISTORY_LENGTH) 0), 0.
    rewrite update_counters_idle by (done || lia).
    split; [done|]. split; [done|]. split; [lia|done].
Qed.

Lemma two_admitted_ok : rate_limit_ok two_admitted.
Proof.
  constructor; cbn [two_admitted mRequestCounters mCurrentRPS mMaxRPS].
  - vm_compute. reflexivity.
  - apply Forall_nonneg_insert; [apply Forall_nonneg_replicate|lia].
  - vm_compute. reflexivity.
  - lia.
  - unfold is_int, INT_MIN, INT_MAX. lia.
Qed.

Lemma reconciliation_by_cases_witness :
  exists counters rps,
    update_counters two_admitted 103 = Some (counters, rps) /\
    (forall s, 100 < s <= 103 -> array_at counters (s mod HISTORY_LENGTH) = Some 0) /\
    (forall j, 0 <= j < HISTORY_LENGTH ->
       (forall s, 100 < s <= 103 -> s mod HISTORY_LENGTH <> j) ->
       array_at counters j = array_at (mRequestCounters two_admitted) j) /\
    rps = 2 - sum_range (slot (mRequestCounters two_admitted)) (100 + 1) (Z.to_nat (103 - 100)).
Proof.
  destruct (reconciliation_by_cases two_admitted 103)
    as (counters & rps & Hupd & _ & Hrecent & _).
  - apply two_admitted_ok.
  - unfold is_uint64, UINT64_MOD. simpl. lia.
  - unfold UINT64_MOD. simpl. lia.
  - exists counters, rps. split; [exact Hupd|]. apply Hrecent.
    + simpl. lia.
    + simpl. rewrite HISTORY_LENGTH_eq. lia.
Defined.

(** ** A limiter left idle *)

(** A call on a limiter whose reconciled buffer is empty. *)
Lemma call_on_empty rl current_slice :
  rate_limit_ok rl ->
  update_counters rl current_slice = Some (replicate (Z.to_nat HISTORY_LENGTH) 0, 0) ->
  tryAquireRequestTicket rl current_slice
  = Some (after_call rl current_slice (replicate (Z.to_nat HISTORY_LENGTH) 0)).
Proof.
  intros Hok Hupd.
  destruct (tryAquireRequestTicket_step rl current_slice Hok) as (c' & Hupd' & _ & _ & _ & ->).
  congruence.
Qed.

Lemma update_counters_new maxRPS now_slice current_slice :
  is_int maxRPS ->
  update_counters (new maxRPS now_slice) current_slice
  = Some (replicate (Z.to_nat HISTORY_LENGTH) 0, 0).
Proof.
  intros HM.
  destruct (update_counters_ok (new maxRPS now_slice) current_slice (new_ok _ _ HM))
    as (c' & -> & Hlen & Hpos & Hsum).
  cbn [new mRequestCounters] in Hlen, Hsum. rewrite sumZ_replicate in Hsum.
  pose proof (sumZ_nonneg c' Hpos) as Hge.
  assert (Hzero : sumZ c' = 0) by lia.
  pose proof (all_zero c' Hpos Hzero) as Hc'.
  rewrite Hlen, length_replicate in Hc'. by rewrite Hzero, Hc'.
Qed.

(** C7. Let a limiter that satisfies its invariant be left idle for more
    than the window of [N_TIME_SLICES] slices: the clock reads
    [current_slice] at the next call, more than [N_TIME_SLICES] slices
    after [mLastUpdateSlice] (so [HISTORY_LENGTH] slices or more).  Then
    that call and every call after it return what the same calls return
    on a limiter freshly constructed with the same cap (at any clock
    reading [fresh_slice]), and both limiters end in the same state. *)
Theorem idle_limiter_is_fresh rl fresh_slice current_slice clock :
  rate_limit_ok rl ->
  is_uint64 (mLastUpdateSlice rl) ->
  current_slice < UINT64_MOD ->
  N_TIME_SLICES < current_slice - mLastUpdateSlice rl ->
  exists bs rl',
    run rl (current_slice :: clock) = Some (bs, rl') /\
    run (new (mMaxRPS rl) fresh_slice) (current_slice :: clock) = Some (bs, rl').
Proof.
  intros Hok Hlast Hnow Hidle.
  assert (Hupd : update_counters rl current_slice
                 = Some (replicate (Z.to_nat HISTORY_LENGTH) 0, 0)).
  { apply update_counters_idle; [done..|]. unfold HISTORY_LENGTH. lia. }
  pose proof (ok_max rl Hok) as HM.
  pose proof (call_on_empty rl current_slice Hok Hupd) as Hcall.
  pose proof (call_on_empty (new (mMaxRPS rl) fresh_slice) current_slice
                (new_ok _ _ HM) (update_counters_new _ _ _ HM)) as Hfresh.
  assert (Hsame : after_call (new (mMaxRPS rl) fresh_slice) current_slice
                    (replicate (Z.to_nat HISTORY_LENGTH) 0)
                  = after_call rl current_slice (replicate (Z.to_nat HISTORY_LENGTH) 0))
    by done.
  rewrite Hsame in Hfresh.
  destruct (run_ok (current_slice :: clock) rl Hok) as (bs & rl' & Hrun & _).
  exists bs, rl'. split; [done|].
  cbn [run] in *. by rewrite Hfresh, <- Hcall.
Qed.

Lemma idle_limiter_is_fresh_witness :
  exists bs rl',
    run two_admitted (1101 :: [1101; 1101; 1101; 1101; 1101]) = Some (bs, rl') /\
    run (new (mMaxRPS two_admitted) 1050) (1101 :: [1101; 1101; 1101; 1101; 1101])
    = Some (bs, rl').
Proof.
  apply (idle_limiter_is_fresh two_admitted 1050 1101 [1101; 1101; 1101; 1101; 1101]).
  - apply two_admitted_ok.
  - unfold is_uint64, UINT64_MOD. simpl. lia.
  - unfold UINT64_MOD. lia.
  - unfold N_TIME_SLICES. simpl. lia.
Defined.

(** ** The buffer as a record of the history *)

Lemma admitted_in_app lo hi (l1 l2 : list event) :
  admitted_in lo hi (l1 ++ l2) = admitted_in lo hi l1 + admitted_in lo hi l2.
Proof.
  induction l1 as [|[s b] l1 IH]; [done|]. simpl. rewrite IH. lia.
Qed.

Lemma admitted_in_le t lo hi lo' hi' (l : list event) :
  Forall (fun e : event => e.1 <= t) l -> lo' <= lo -> t < hi' ->
  admitted_in lo hi l <= admitted_in lo' hi' l.
Proof.
  intros Hl Hlo Hhi. induction Hl as [|[s b] l Hs _ IH]; simpl; [lia|].
  simpl in Hs. destruct b; simpl; [|lia].
  destruct (Z.leb_spec lo s), (Z.ltb_spec s hi), (Z.leb_spec lo' s), (Z.ltb_spec s hi');
    simpl; lia.
Qed.

Lemma admitted_in_later t lo hi (l : list event) :
  Forall (fun e : event => e.1 <= t) l -> t < lo -> admitted_in lo hi l = 0.
Proof.
  intros Hl Hlo. induction Hl as [|[s b] l Hs _ IH]; simpl; [lia|].
  simpl in Hs. destruct (Z.leb_spec lo s); [lia|]. rewrite andb_false_r. simpl. lia.
Qed.

Lemma admitted_in_split lo mid hi (l : list event) :
  lo <= mid <= hi ->
  admitted_in lo hi l = admitted_in lo mid l + admitted_in mid hi l.
Proof.
  intros Hmid. induction l as [|[s b] l IH]; simpl; [lia|]. rewrite IH.
  destruct b; simpl; [|lia].
  destruct (Z.leb_spec lo s), (Z.ltb_spec s hi), (Z.leb_spec mid s), (Z.ltb_spec s mid);
    simpl; lia.
Qed.

Lemma admitted_in_sum (l : list event) b n :
  admitted_in b (b + Z.of_nat n) l = sum_range (fun s => admitted_at s l) b n.
Proof.
  induction n as [|n IH].
  - simpl. rewrite Z.add_0_r. induction l as [|[s c] l IHl]; simpl; [lia|].
    rewrite IHl. destruct c; simpl; [|lia].
    destruct (Z.leb_spec b s), (Z.ltb_spec s b); simpl; lia.
  - rewrite sum_range_snoc, <- IH. unfold admitted_at.
    rewrite (admitted_in_split b (b + Z.of_nat n) (b + Z.of_nat (S n))) by lia.
    do 2 f_equal. lia.
Qed.

Lemma sum_range_list (c : list Z) : forall b,
  sum_range (fun s => default 0 (c !! Z.to_nat (s - b))) b (length c) = sumZ c.
Proof.
  induction c as [|x c IH]; intros b; [done|].
  cbn [length sum_range sumZ]. rewrite Z.sub_diag. cbn. f_equal.
  rewrite <- (IH (b + 1)). apply sum_range_ext. intros k Hk.
  replace (Z.to_nat (k - b)) with (S (Z.to_nat (k - (b + 1)))) by lia. done.
Qed.

(** The sum over any [HISTORY_LENGTH] consecutive slices goes once round
    the buffer. *)
Lemma sum_range_round (c : list Z) b :
  Z.of_nat (length c) = HISTORY_LENGTH ->
  sum_range (slot c) b (Z.to_nat HISTORY_LENGTH) = sumZ c.
Proof.
  intros Hlen.
  assert (Hstep : forall b, sum_range (slot c) (b + 1) (Z.to_nat HISTORY_LENGTH)
                            = sum_range (slot c) b (Z.to_nat HISTORY_LENGTH)).
  { intros b'. pose proof (sum_range_snoc (slot c) b' (Z.to_nat HISTORY_LENGTH)) as Hsnoc.
    cbn [sum_range] in Hsnoc.
    replace (b' + Z.of_nat (Z.to_nat HISTORY_LENGTH)) with (b' + HISTORY_LENGTH) in Hsnoc
      by ring_index.
    rewrite slot_period in Hsnoc. lia. }
  assert (Hzero : sum_range (slot c) 0 (Z.to_nat HISTORY_LENGTH) = sumZ c).
  { rewrite <- (sum_range_list c 0).
    replace (Z.to_nat HISTORY_LENGTH) with (length c) by lia.
    apply sum_range_ext. intros k Hk. rewrite slot_index by lia. by rewrite Z.sub_0_r. }
  revert b. apply Z.bi_induction.
  - intros x y ->. done.
  - done.
  - intros b. unfold Z.succ. rewrite Hstep. done.
Qed.

(** What the running total counts, for a limiter that holds [past]. *)
Lemma tracks_total rl past :
  tracks rl past ->
  mCurrentRPS rl
  = admitted_in (mLastUpdateSlice rl - HISTORY_LENGTH + 1) (mLastUpdateSlice rl + 1) past.
Proof.
  intros [[Hlen _ Hsum _ _] _ _ Hslots].
  rewrite Hsum, <- (sum_range_round _ (mLastUpdateSlice rl - HISTORY_LENGTH + 1) Hlen).
  replace (mLastUpdateSlice rl + 1)
    with (mLastUpdateSlice rl - HISTORY_LENGTH + 1 + Z.of_nat (Z.to_nat HISTORY_LENGTH))
    by ring_index.
  rewrite admitted_in_sum. apply sum_range_ext. intros k Hk. apply Hslots. ring_index.
Qed.

Lemma admitted_at_snoc s now b (past : list event) :
  admitted_at s (past ++ [(now, b)])
  = admitted_at s past + (if b && (s =? now) then 1 else 0).
Proof.
  unfold admitted_at. rewrite admitted_in_app. f_equal. simpl.
  destruct b; simpl; [|lia].
  destruct (Z.leb_spec s now), (Z.ltb_spec now (s + 1)), (Z.eqb_spec s now); simpl; lia.
Qed.

(** Reconciliation with a steady clock keeps the record of the history. *)
Lemma update_counters_tracks rl past current_slice :
  tracks rl past ->
  mLastUpdateSlice rl <= current_slice < UINT64_MOD ->
  exists c',
    update_counters rl current_slice = Some (c', sumZ c') /\
    length c' = length (mRequestCounters rl) /\
    Forall (fun x => 0 <= x) c' /\
    sumZ c' <= sumZ (mRequestCounters rl) /\
    tracks (mk current_slice (mMaxRPS rl) c' (sumZ c')) past.
Proof.
  intros [Hok Hlast Hpast Hslots] Hnow.
  destruct (update_counters_ok rl current_slice Hok) as (c' & Hupd & Hlen & Hpos & Hle).
  exists c'. split; [done|]. split; [done|]. split; [done|]. split; [done|].
  pose proof Hok as [Hlen0 Hpos0 Hsum0 Hbound0 Hmax0].
  constructor; cbn [mLastUpdateSlice mMaxRPS mRequestCounters mCurrentRPS].
  - constructor; cbn [mLastUpdateSlice mMaxRPS mRequestCounters mCurrentRPS];
      [lia|done|done|lia|done].
  - unfold is_uint64 in *. lia.
  - eapply Forall_impl; [exact Hpast|]. intros e He. simpl in *. lia.
  - intros s Hs.
    destruct (Z.eq_dec current_slice (mLastUpdateSlice rl)) as [Heq|Hne].
    { unfold update_counters in Hupd. rewrite Heq, Z.eqb_refl in Hupd.
      injection Hupd as <- _. apply Hslots. lia. }
    destruct (Z.lt_ge_cases (current_slice - mLastUpdateSlice rl) HISTORY_LENGTH)
      as [Hrecent|Hidle].
    + destruct (update_counters_recent rl current_slice Hok Hlast) as (c2 & Hupd2 & _ & Hc2);
        [lia|done|].
      rewrite Hupd in Hupd2. injection Hupd2 as <-.
      pose proof (index_range s) as Hidx. unfold slot at 1. rewrite Hc2 by done.
      destruct (Z.ltb_spec ((s mod HISTORY_LENGTH - (mLastUpdateSlice rl + 1)) mod HISTORY_LENGTH)
                  (current_slice - mLastUpdateSlice rl)) as [Hzeroed|Hkept].
      * cbn. symmetry. apply (admitted_in_later (mLastUpdateSlice rl)); [done|].
        ring_index.
      * fold (slot (mRequestCounters rl) s). apply Hslots. ring_index.
    + rewrite (update_counters_idle rl current_slice Hok Hlast) in Hupd by (done || lia).
      assert (Hc' : c' = replicate (Z.to_nat HISTORY_LENGTH) 0) by congruence.
      rewrite Hc'. unfold slot.
      rewrite lookup_replicate_2 by (pose proof (index_range s); lia).
      cbn. symmetry. apply (admitted_in_later (mLastUpdateSlice rl)); [done|]. lia.
Qed.

(** One call with a steady clock: the answer is that of the sliding
    window, and the limiter holds the history with the call added. *)
Lemma tryAquireRequestTicket_tracks rl past current_slice :
  tracks rl past ->
  mLastUpdateSlice rl <= current_slice < UINT64_MOD ->
  exists rl',
    tryAquireRequestTicket rl current_slice
    = Some (admitted_in (current_slice - HISTORY_LENGTH + 1) (current_slice + 1) past
              <? mMaxRPS rl, rl') /\
    tracks rl' (past ++ [(current_slice,
                          admitted_in (current_slice - HISTORY_LENGTH + 1)
                            (current_slice + 1) past <? mMaxRPS rl)]) /\
    mMaxRPS rl' = mMaxRPS rl /\
    mLastUpdateSlice rl' = current_slice.
Proof.
  intros Htr Hnow.
  destruct (update_counters_tracks rl past current_slice Htr Hnow)
    as (c' & Hupd & Hlen & Hpos & Hle & Htr1).
  pose proof (tracks_total _ _ Htr1) as Htotal.
  cbn [mLastUpdateSlice mCurrentRPS] in Htotal.
  pose proof (tracks_ok _ _ Htr) as Hok.
  destruct (tryAquireRequestTicket_step rl current_slice Hok) as (c2 & Hupd2 & _ & _ & _ & Hcall).
  rewrite Hupd in Hupd2. injection Hupd2 as <-.
  destruct (after_call_ok rl current_slice c' Hok Hlen Hpos Hle) as (Hok' & HM' & Hlast').
  rewrite Hcall. rewrite <- Htotal. clear Hcall Htotal.
  exists (after_call rl current_slice c').2.
  split. { unfold after_call. by destruct (sumZ c' <? mMaxRPS rl). }
  split; [|done].
  destruct Htr1 as [_ Hlast1 Hpast1 Hslots1].
  cbn [mLastUpdateSlice mMaxRPS mRequestCounters mCurrentRPS] in *.
  constructor; [done|by rewrite Hlast'| |].
  - rewrite Hlast'. apply Forall_app. split; [done|].
    apply Forall_singleton. simpl. lia.
  - rewrite Hlast'. intros s Hs. rewrite admitted_at_snoc, <- (Hslots1 s Hs).
    unfold after_call. pose proof (index_range current_slice) as Hidx.
    pose proof (ok_length _ Hok) as Hlen0.
    destruct (sumZ c' <? mMaxRPS rl); cbn [snd mRequestCounters andb];
      [|symmetry; apply Z.add_0_r].
    destruct (Z.eqb_spec s current_slice) as [->|Hne].
    + unfold slot at 1. rewrite list_lookup_insert_eq by lia. done.
    + unfold slot at 1. rewrite list_lookup_insert_ne by ring_index.
      fold (slot c' s). lia.
Qed.

(** The limiter is the sliding window: with a steady clock, a sequence
    of calls returns the answers of [sliding_window]. *)
Lemma run_tracks clock : forall rl past,
  tracks rl past ->
  steady (mLastUpdateSlice rl) clock ->
  exists rl',
    run rl clock = Some (sliding_window (mMaxRPS rl) past clock, rl') /\
    tracks rl' (past ++ zip clock (sliding_window (mMaxRPS rl) past clock)) /\
    mMaxRPS rl' = mMaxRPS rl.
Proof.
  induction clock as [|now clock IH]; intros rl past Htr Hsteady.
  { exists rl. cbn. by rewrite app_nil_r. }
  destruct Hsteady as [Hnow Hsteady].
  destruct (tryAquireRequestTicket_tracks rl past now Htr Hnow)
    as (rl1 & Hcall & Htr1 & HM1 & Hlast1).
  rewrite <- Hlast1 in Hsteady.
  destruct (IH rl1 _ Htr1 Hsteady) as (rl2 & Hrun & Htr2 & HM2).
  exists rl2. cbn [run sliding_window zip zip_with]. rewrite Hcall. cbn [mbind option_bind].
  rewrite Hrun, HM1. cbn [mbind option_bind].
  split; [done|]. split; [|congruence].
  rewrite HM1, <- app_assoc in Htr2. done.
Qed.

Lemma new_tracks maxRPS now_slice :
  is_int maxRPS -> is_uint64 now_slice -> tracks (new maxRPS now_slice) [].
Proof.
  intros HM Hnow. constructor; [by apply new_ok|done|done|].
  intros s Hs. cbn [new mRequestCounters]. unfold slot.
  rewrite lookup_replicate_2 by (pose proof (index_range s); lia). done.
Qed.

(** ** Admissions per window *)

Lemma sliding_window_capped maxRPS : forall clock past last,
  Forall (fun e : event => e.1 <= last) past ->
  steady last clock ->
  (forall lo, admitted_in lo (lo + HISTORY_LENGTH) past <= maxRPS) ->
  forall lo,
    admitted_in lo (lo + HISTORY_LENGTH)
      (past ++ zip clock (sliding_window maxRPS past clock)) <= maxRPS.
Proof.
  induction clock as [|now clock IH]; intros past last Hpast Hsteady Hcap lo.
  { cbn. rewrite app_nil_r. apply Hcap. }
  destruct Hsteady as [Hnow Hsteady].
  cbn [sliding_window zip zip_with]. rewrite cons_middle, app_assoc.
  apply (IH _ now); [|done|].
  - apply Forall_app. split; [|by apply Forall_singleton].
    eapply Forall_impl; [exact Hpast|]. intros e He. simpl in *. lia.
  - clear lo. intros lo. rewrite admitted_in_app. cbn [admitted_in].
    destruct (Z.ltb_spec (admitted_in (now - HISTORY_LENGTH + 1) (now + 1) past) maxRPS)
      as [Hroom|_]; cbn [andb]; [|specialize (Hcap lo); lia].
    destruct (Z.leb_spec lo now), (Z.ltb_spec now (lo + HISTORY_LENGTH));
      cbn [andb]; try (specialize (Hcap lo); lia).
    pose proof (admitted_in_le last lo (lo + HISTORY_LENGTH)
                  (now - HISTORY_LENGTH + 1) (now + 1) past Hpast) as Hle.
    lia.
Qed.

(** A trailing window of one second in slices: every clock value of the
    closed interval [[t - 1, t]] lies in one of the [N_TIME_SLICES + 1]
    consecutive slices that start with the slice of [t - 1]. *)
Lemma one_second_in_slices (t s : Q) :
  (1 <= t)%Q -> (t * inject_Z N_TIME_SLICES < inject_Z UINT64_MOD)%Q ->
  (t - 1 <= s)%Q -> (s <= t)%Q ->
  get_time_slices_since_epoch (t - 1)
  <= get_time_slices_since_epoch s
  < get_time_slices_since_epoch (t - 1) + N_TIME_SLICES + 1.
Proof.
  intros Hpos Hmax Hlo Hhi. unfold get_time_slices_since_epoch, N_TIME_SLICES in *.
  change (inject_Z 1000) with (1000 # 1)%Q in *.
  assert (Hrange : forall x : Q, (t - 1 <= x)%Q -> (x <= t)%Q ->
            0 <= Qfloor (x * (1000 # 1)) < UINT64_MOD).
  { intros x Hx1 Hx2. split.
    - change 0 with (Qfloor 0). apply Qfloor_resp_le. lra.
    - rewrite Zlt_Qlt. pose proof (Qfloor_le (x * (1000 # 1))). lra. }
  rewrite !Z.mod_small by (apply Hrange; lra).
  split.
  - apply Qfloor_resp_le. lra.
  - pose proof (Qfloor_le (s * (1000 # 1))) as Hs.
    pose proof (Qlt_floor ((t - 1) * (1000 # 1))) as Ht.
    rewrite Zlt_Qlt.
    replace (Qfloor ((t - 1) * (1000 # 1)) + 1000 + 1)
      with ((Qfloor ((t - 1) * (1000 # 1)) + 1) + 1000) by lia.
    rewrite (inject_Z_plus _ 1000). change (inject_Z 1000) with (1000 # 1)%Q.
    lra.
Qed.

(** C1. Take a limiter with a non-negative cap and any sequence of calls,
    in the order in which they hold the lock (so issued by any number of
    callers), with a steady clock.  All of them return, and in every window
    of [N_TIME_SLICES + 1] consecutive slices (one second and one slice
    more, which covers every trailing window of one second whatever its
    rounding to slices, see [one_second_in_slices]) at most [maxRPS] of
    the calls returned [true]. *)
Theorem admissions_per_window maxRPS now_slice clock :
  is_int maxRPS -> 0 <= maxRPS -> is_uint64 now_slice ->
  steady now_slice clock ->
  exists bs rl,
    run (new maxRPS now_slice) clock = Some (bs, rl) /\
    length bs = length clock /\
    forall lo, admitted_in lo (lo + N_TIME_SLICES + 1) (zip clock bs) <= maxRPS.
Proof.
  intros HM Hpos Hnow Hsteady.
  destruct (run_tracks clock (new maxRPS now_slice) [] (new_tracks _ _ HM Hnow) Hsteady)
    as (rl & Hrun & _ & _).
  cbn [new mMaxRPS] in Hrun.
  destruct (run_ok clock (new maxRPS now_slice) (new_ok _ _ HM)) as (bs & rl' & Hrun' & _ & _ & Hlen).
  exists bs, rl'. split; [done|]. split; [done|].
  assert (bs = sliding_window maxRPS [] clock) as -> by congruence.
  intros lo. rewrite <- Z.add_assoc.
  apply (sliding_window_capped maxRPS clock [] now_slice); [done|done|].
  intros lo'. simpl. lia.
Qed.

Lemma admissions_per_window_witness :
  exists bs rl,
    run (new 2 10) [10; 10; 500; 1010; 1011; 1011] = Some (bs, rl) /\
    length bs = length [10; 10; 500; 1010; 1011; 1011] /\
    forall lo, admitted_in lo (lo + N_TIME_SLICES + 1)
                 (zip [10; 10; 500; 1010; 1011; 1011] bs) <= 2.
Proof.
  apply (admissions_per_window 2 10 [10; 10; 500; 1010; 1011; 1011]).
  - unfold is_int, INT_MIN, INT_MAX. lia.
  - lia.
  - unfold is_uint64, UINT64_MOD. lia.
  - cbn [steady]. unfold UINT64_MOD. lia.
Defined.

(** ** Bursts *)

Lemma sliding_window_app maxRPS clock1 : forall past clock2,
  sliding_window maxRPS past (clock1 ++ clock2)
  = sliding_window maxRPS past clock1
    ++ sliding_window maxRPS
         (past ++ zip clock1 (sliding_window maxRPS past clock1)) clock2.
Proof.
  induction clock1 as [|now clock1 IH]; intros past clock2.
  { cbn. by rewrite app_nil_r. }
  cbn [app sliding_window zip zip_with]. rewrite IH.
  do 3 f_equal. by rewrite <- app_assoc.
Qed.

Lemma admitted_in_le_length lo hi (l : list event) :
  admitted_in lo hi l <= Z.of_nat (length l).
Proof.
  induction l as [|[s b] l IH]; simpl; [lia|].
  destruct (b && (lo <=? s) && (s <? hi)); lia.
Qed.

Lemma admitted_in_denied lo hi (clock : list Z) n :
  admitted_in lo hi (zip clock (replicate n false)) = 0.
Proof.
  revert n. induction clock as [|t clock IH]; intros [|n]; cbn; try done.
  rewrite IH. done.
Qed.

Lemma admitted_in_earlier lo hi (clock : list Z) (bs : list bool) :
  Forall (fun t => t < lo) clock -> admitted_in lo hi (zip clock bs) = 0.
Proof.
  intros Hclock. revert bs. induction Hclock as [|t clock Ht _ IH]; intros [|b bs]; cbn;
    try done.
  rewrite IH. destruct (Z.leb_spec lo t); [lia|]. by rewrite andb_false_r.
Qed.

(** While fewer calls have been made than the cap allows, every call is
    admitted. *)
Lemma sliding_window_room maxRPS clock : forall past,
  Z.of_nat (length past) + Z.of_nat (length clock) <= maxRPS ->
  sliding_window maxRPS past clock = replicate (length clock) true.
Proof.
  induction clock as [|now clock IH]; intros past Hroom; [done|].
  cbn [sliding_window length replicate]. cbn [length] in Hroom.
  pose proof (admitted_in_le_length (now - HISTORY_LENGTH + 1) (now + 1) past) as Hle.
  destruct (Z.ltb_spec (admitted_in (now - HISTORY_LENGTH + 1) (now + 1) past) maxRPS)
    as [_|]; [|lia].
  rewrite IH; [done|]. rewrite length_app. simpl. lia.
Qed.

(** A burst that starts at slice [first]: as long as the calls stay
    within [N_TIME_SLICES] slices of [first], every admission of the burst
    is still counted, so the calls are admitted until the cap is reached
    and denied from then on.  [k] is the number of admissions counted
    so far. *)
Lemma sliding_window_burst maxRPS first : forall clock past k last,
  first <= last ->
  steady last clock ->
  Forall (fun t => t <= first + N_TIME_SLICES) clock ->
  (forall t, last <= t <= first + N_TIME_SLICES ->
     admitted_in (t - HISTORY_LENGTH + 1) (t + 1) past = k) ->
  sliding_window maxRPS past clock
  = replicate (Z.to_nat (maxRPS - k) `min` length clock) true
    ++ replicate (length clock - Z.to_nat (maxRPS - k)) false.
Proof.
  induction clock as [|now clock IH]; intros past k last Hfirst Hsteady Hnear Hk.
  { cbn. by rewrite Nat.min_0_r. }
  destruct Hsteady as [Hnow Hsteady]. apply Forall_cons in Hnear as [Hnow' Hnear].
  cbn [sliding_window length]. rewrite (Hk now) by lia.
  destruct (Z.ltb_spec k maxRPS) as [Hroom|Hfull].
  - rewrite (IH _ (k + 1) now); [|lia|done|done|].
    + replace (Z.to_nat (maxRPS - k)) with (S (Z.to_nat (maxRPS - (k + 1)))) by lia.
      done.
    + intros t Ht. rewrite admitted_in_app, (Hk t) by lia. cbn.
      destruct (Z.leb_spec (t - HISTORY_LENGTH + 1) now), (Z.ltb_spec now (t + 1));
        cbn; ring_index.
  - rewrite (IH _ k now); [|lia|done|done|].
    + replace (Z.to_nat (maxRPS - k)) with 0%nat by lia. cbn.
      by rewrite Nat.sub_0_r.
    + intros t Ht. rewrite admitted_in_app, (Hk t) by lia. cbn. lia.
Qed.

Lemma steady_app_l last clock1 : forall clock2,
  steady last (clock1 ++ clock2) -> steady last clock1.
Proof.
  revert last. induction clock1 as [|t clock1 IH]; intros last clock2; [done|].
  cbn. intros [Ht Hrest]. split; [done|]. by apply (IH t clock2).
Qed.

Lemma steady_app_cons last clock1 : forall t clock2,
  steady last (clock1 ++ t :: clock2) -> steady t (t :: clock2).
Proof.
  revert last. induction clock1 as [|t' clock1 IH]; intros last t clock2.
  - cbn. intros [Ht Hrest]. split; [lia|done].
  - cbn [app steady]. intros [_ Hrest]. by apply (IH t').
Qed.

(** C3, as the code has it.  Take a cold limiter with cap [maxRPS > 0]
    and a steady clock.  The first [maxRPS] calls all return [true],
    whenever they are made.  When the first [maxRPS] calls and the calls
    [d] after them all fall within [N_TIME_SLICES] slices of the first
    call, the calls [d] return [false].  And when the next call is made
    [HISTORY_LENGTH] slices (one second and one slice) or more after each
    of the admitted calls, it and the [maxRPS - 1] calls after it return
    [true], and the calls [e] after those, made within [N_TIME_SLICES]
    slices of it, return [false]. *)
Theorem burst_denial_and_refill maxRPS now_slice t1 a d u1 b e :
  is_int maxRPS -> 0 < maxRPS -> is_uint64 now_slice ->
  (forall clock,
     steady now_slice clock -> Z.of_nat (length clock) <= maxRPS ->
     fst <$> run (new maxRPS now_slice) clock = Some (replicate (length clock) true)) /\
  (steady now_slice ((t1 :: a) ++ d ++ (u1 :: b) ++ e) ->
   length (t1 :: a) = Z.to_nat maxRPS ->
   length (u1 :: b) = Z.to_nat maxRPS ->
   Forall (fun t => t <= t1 + N_TIME_SLICES) (a ++ d) ->
   Forall (fun t => t + HISTORY_LENGTH <= u1) (t1 :: a) ->
   Forall (fun t => t <= u1 + N_TIME_SLICES) (b ++ e) ->
   fst <$> run (new maxRPS now_slice) ((t1 :: a) ++ d ++ (u1 :: b) ++ e)
   = Some (replicate (Z.to_nat maxRPS) true ++ replicate (length d) false
           ++ replicate (Z.to_nat maxRPS) true ++ replicate (length e) false)).
Proof.
  intros HM Hpos Hnow. split.
  - intros clock Hsteady Hlen.
    destruct (run_tracks clock (new maxRPS now_slice) [] (new_tracks _ _ HM Hnow) Hsteady)
      as (rl & -> & _ & _).
    cbn [new mMaxRPS fmap option_fmap option_map fst]. f_equal.
    apply sliding_window_room. simpl. lia.
  - intros Hsteady Hlen1 Hlen2 Hnear1 Hfar Hnear2.
    destruct (run_tracks _ (new maxRPS now_slice) [] (new_tracks _ _ HM Hnow) Hsteady)
      as (rl & -> & _ & _).
    cbn [new mMaxRPS fmap option_fmap option_map fst]. f_equal.
    rewrite (app_assoc (t1 :: a) d) in *.
    rewrite sliding_window_app.
    assert (Hburst1 : sliding_window maxRPS [] ((t1 :: a) ++ d)
                      = replicate (Z.to_nat maxRPS) true ++ replicate (length d) false).
    { rewrite (sliding_window_burst maxRPS t1 _ [] 0 t1).
      - rewrite length_app, Hlen1, Z.sub_0_r, Nat.min_l by lia.
        replace (Z.to_nat maxRPS + length d - Z.to_nat maxRPS)%nat with (length d) by lia.
        done.
      - lia.
      - apply steady_app_l in Hsteady. cbn [app steady] in *.
        destruct Hsteady as [Ht1 Hrest]. split; [lia|done].
      - cbn [app]. apply Forall_cons. split; [unfold N_TIME_SLICES; lia|done].
      - done. }
    rewrite Hburst1, <- app_assoc. f_equal. f_equal.
    rewrite (sliding_window_burst maxRPS u1 _ _ 0 u1).
    + rewrite length_app, Hlen2, Z.sub_0_r, Nat.min_l by lia.
      replace (Z.to_nat maxRPS + length e - Z.to_nat maxRPS)%nat with (length e) by lia.
      done.
    + lia.
    + by apply steady_app_cons in Hsteady.
    + cbn [app]. apply Forall_cons. split; [unfold N_TIME_SLICES; lia|done].
    + intros t Ht. rewrite app_nil_l, zip_with_app by (by rewrite length_replicate).
      rewrite admitted_in_app, admitted_in_denied, Z.add_0_r.
      apply admitted_in_earlier. eapply Forall_impl; [exact Hfar|].
      intros t' Ht'. simpl in Ht'. lia.
Qed.

Lemma burst_denial_and_refill_witness :
  (forall clock,
     steady 0 clock -> Z.of_nat (length clock) <= 2 ->
     fst <$> run (new 2 0) clock = Some (replicate (length clock) true)) /\
  fst <$> run (new 2 0) ((3 :: [4]) ++ [4; 900] ++ (1005 :: [1005]) ++ [1006])
  = Some (replicate (Z.to_nat 2) true ++ replicate (length [4; 900]) false
          ++ replicate (Z.to_nat 2) true ++ replicate (length [1006]) false).
Proof.
  destruct (burst_denial_and_refill 2 0 3 [4] [4; 900] 1005 [1005] [1006])
    as [Hfirst Hscenario].
  - unfold is_int, INT_MIN, INT_MAX. lia.
  - lia.
  - unfold is_uint64, UINT64_MOD. lia.
  - split; [exact Hfirst|]. apply Hscenario.
    + cbn [app steady]. unfold UINT64_MOD. lia.
    + reflexivity.
    + reflexivity.
    + repeat constructor; unfold N_TIME_SLICES; lia.
    + repeat constructor; vm_compute; discriminate.
    + repeat constructor; unfold N_TIME_SLICES; lia.
Defined.

(** C3 as the specification words it fails: with cap [1], a call at
    5.25 s is admitted and a call exactly one second later, at 6.25 s
    (slices [5250] and [6250], [N_TIME_SLICES] apart, with no call in
    between), is denied. *)
Lemma denied_one_second_after_admission :
  get_time_slices_since_epoch (21 # 4) = 5250 /\
  get_time_slices_since_epoch ((21 # 4) + 1) = 6250 /\
  6250 - 5250 = N_TIME_SLICES /\
  fst <$> run (new 1 5250) [5250; 6250] = Some [true; false].
Proof. vm_compute. repeat split. Qed.

(** ** Further properties of the limiter *)

Lemma run_last_slice clock : forall rl bs rl',
  rate_limit_ok rl ->
  run rl clock = Some (bs, rl') ->
  mLastUpdateSlice rl' = default (mLastUpdateSlice rl) (list.last clock).
Proof.
  induction clock as [|now clock IH]; intros rl bs rl' Hok Hrun.
  { cbn in Hrun. by injection Hrun as _ <-. }
  cbn [run] in Hrun.
  destruct (tryAquireRequestTicket_ok rl now Hok) as (b & rl1 & Hcall & Hok1 & _ & Hlast1).
  rewrite Hcall in Hrun. cbn [mbind option_bind] in Hrun.
  destruct (run rl1 clock) as [[bs2 rl2]|] eqn:Hrest; [|done].
  cbn [mbind option_bind] in Hrun. injection Hrun as _ <-.
  rewrite (IH rl1 bs2 rl2 Hok1 Hrest), Hlast1, last_cons.
  by destruct (list.last clock).
Qed.

(** X1. A limiter constructed with any [int] cap never runs into undefined
    behaviour: whatever the clock reads at each call (also readings that
    go backwards), every call of every sequence returns, the loop ends
    within [HISTORY_LENGTH] tests, no [int] overflows and no subscript
    leaves the buffer.  Afterwards the buffer still has [HISTORY_LENGTH]
    non-negative counters whose sum is the running total, the cap is
    unchanged and [mLastUpdateSlice] is the reading of the last call. *)
Theorem calls_never_fault maxRPS now_slice clock :
  is_int maxRPS ->
  exists bs rl,
    run (new maxRPS now_slice) clock = Some (bs, rl) /\
    length bs = length clock /\
    rate_limit_ok rl /\
    mMaxRPS rl = maxRPS /\
    mLastUpdateSlice rl = default now_slice (list.last clock).
Proof.
  intros HM.
  destruct (run_ok clock (new maxRPS now_slice) (new_ok _ _ HM))
    as (bs & rl & Hrun & Hok & Hcap & Hlen).
  exists bs, rl. split; [done|]. split; [done|]. split; [done|]. split; [done|].
  apply (run_last_slice clock _ bs rl (new_ok _ _ HM) Hrun).
Qed.

Lemma calls_never_fault_witness :
  exists bs rl,
    run (new (-3) 500) [400; 2 ^ 64 - 1; 0; 7] = Some (bs, rl) /\
    length bs = length [400; 2 ^ 64 - 1; 0; 7] /\
    rate_limit_ok rl /\
    mMaxRPS rl = -3 /\
    mLastUpdateSlice rl = default 500 (list.last [400; 2 ^ 64 - 1; 0; 7]).
Proof.
  apply (calls_never_fault (-3) 500 [400; 2 ^ 64 - 1; 0; 7]).
  unfold is_int, INT_MIN, INT_MAX. lia.
Defined.

(** X2. With a steady clock the limiter is an exact sliding window at
    slice resolution: a call at slice [now] returns [true] exactly when
    fewer than [maxRPS] of the earlier calls returned [true] with a
    reading among the [HISTORY_LENGTH] slices that end with [now]. *)
Theorem limiter_is_sliding_window maxRPS now_slice clock :
  is_int maxRPS -> is_uint64 now_slice -> steady now_slice clock ->
  fst <$> run (new maxRPS now_slice) clock = Some (sliding_window maxRPS [] clock).
Proof.
  intros HM Hnow Hsteady.
  destruct (run_tracks clock (new maxRPS now_slice) [] (new_tracks _ _ HM Hnow) Hsteady)
    as (rl & -> & _ & _).
  done.
Qed.

Lemma limiter_is_sliding_window_witness :
  fst <$> run (new 2 10) [10; 10; 500; 1010; 1011; 1011]
  = Some (sliding_window 2 [] [10; 10; 500; 1010; 1011; 1011]).
Proof.
  apply (limiter_is_sliding_window 2 10 [10; 10; 500; 1010; 1011; 1011]).
  - unfold is_int, INT_MIN, INT_MAX. lia.
  - unfold is_uint64, UINT64_MOD. lia.
  - cbn [steady]. unfold UINT64_MOD. lia.
Defined.

(** X3. A clock that steps back empties the window.  When the reading of
    a call is earlier than [mLastUpdateSlice] (by at most
    [2^64 - HISTORY_LENGTH] slices, so always for readings below
    [2^64 - HISTORY_LENGTH]), the unsigned difference wraps to a large
    value, the call takes the branch that zeroes every counter, and it is
    admitted whenever the cap is positive, whatever was admitted
    before. *)
Theorem clock_step_back_resets rl current_slice :
  rate_limit_ok rl ->
  is_uint64 (mLastUpdateSlice rl) ->
  0 <= current_slice < mLastUpdateSlice rl ->
  mLastUpdateSlice rl - current_slice <= UINT64_MOD - HISTORY_LENGTH ->
  update_counters rl current_slice = Some (replicate (Z.to_nat HISTORY_LENGTH) 0, 0) /\
  exists rl',
    tryAquireRequestTicket rl current_slice = Some (0 <? mMaxRPS rl, rl') /\
    mCurrentRPS rl' = (if 0 <? mMaxRPS rl then 1 else 0) /\
    mLastUpdateSlice rl' = current_slice.
Proof.
  intros Hok Hlast Hnow Hback.
  assert (Hupd : update_counters rl current_slice
                 = Some (replicate (Z.to_nat HISTORY_LENGTH) 0, 0)).
  { unfold update_counters.
    destruct (Z.eqb_spec current_slice (mLastUpdateSlice rl)) as [|_]; [lia|].
    assert (Hwrap : (current_slice - mLastUpdateSlice rl) mod UINT64_MOD
                    = current_slice - mLastUpdateSlice rl + UINT64_MOD).
    { symmetry. apply (Z.mod_unique _ _ (-1)); unfold is_uint64, UINT64_MOD in *; lia. }
    rewrite Hwrap.
    destruct (Z.ltb_spec (current_slice - mLastUpdateSlice rl + UINT64_MOD) HISTORY_LENGTH)
      as [|_]; [lia|].
    pose proof (ok_length _ Hok) as Hlen.
    by replace (length (mRequestCounters rl)) with (Z.to_nat HISTORY_LENGTH) by lia. }
  split; [done|].
  rewrite (call_on_empty rl current_slice Hok Hupd). unfold after_call.
  rewrite sumZ_replicate.
  destruct (0 <? mMaxRPS rl); eexists; (split; [reflexivity|]); split; reflexivity.
Qed.

Lemma clock_step_back_resets_witness :
  update_counters two_admitted 99 = Some (replicate (Z.to_nat HISTORY_LENGTH) 0, 0) /\
  exists rl',
    tryAquireRequestTicket two_admitted 99 = Some (0 <? mMaxRPS two_admitted, rl') /\
    mCurrentRPS rl' = (if 0 <? mMaxRPS two_admitted then 1 else 0) /\
    mLastUpdateSlice rl' = 99.
Proof.
  apply (clock_step_back_resets two_admitted 99).
  - apply two_admitted_ok.
  - unfold is_uint64, UINT64_MOD. simpl. lia.
  - simpl. lia.
  - unfold UINT64_MOD. simpl. rewrite HISTORY_LENGTH_eq. lia.
Defined.

End Buffer.

(** ** The call recorder *)

Section Recorder.
Import API.

Lemma array_at_inside (d : list Z) i x :
  array_at d i = Some x -> 0 <= i < Z.of_nat (length d).
Proof.
  unfold array_at. destruct (Z.leb_spec 0 i) as [Hi|]; [|done].
  intros Hx. apply lookup_lt_Some in Hx. lia.
Qed.

Lemma increment_length (d d' : list Z) i :
  increment d i = Some d' -> 0 <= i < Z.of_nat (length d) /\ length d' = length d.
Proof.
  unfold increment. destruct (array_at d i) as [x|] eqn:Hx; [|done].
  cbn [mbind option_bind]. destruct (int_checked (x + 1)) as [x'|]; [|done].
  cbn [mbind option_bind]. unfold array_store.
  destruct ((0 <=? i) && (i <? Z.of_nat (length d))); [|done].
  intros [= <-]. split; [by apply (array_at_inside d i x)|by rewrite length_insert].
Qed.

Lemma grow_length (d : list Z) time_index :
  length (grow d time_index)
  = if Z.of_nat (length d) <=? time_index
    then Z.to_nat ((time_index + 1) mod UINT64_MOD) else length d.
Proof.
  unfold grow, deque_resize.
  destruct (Z.of_nat (length d) <=? time_index); [by rewrite length_resize|done].
Qed.

(** One critical section of [call]: both deques end with the length
    [max (old length) (time_index + 1)]. *)
Lemma record_lengths api called time_index api' :
  length (mSuccessfullCalls api) = length (mRateLimitedCalls api) ->
  record api called time_index = Some api' ->
  length (mSuccessfullCalls api')
  = (length (mSuccessfullCalls api) `max` Z.to_nat (time_index + 1))%nat /\
  length (mRateLimitedCalls api')
  = (length (mRateLimitedCalls api) `max` Z.to_nat (time_index + 1))%nat.
Proof.
  intros Hsame. unfold record.
  pose proof (grow_length (mSuccessfullCalls api) time_index) as Hs.
  pose proof (grow_length (mRateLimitedCalls api) time_index) as Hd.
  rewrite <- Hsame in Hd.
  assert (Hmod : 0 <= time_index -> 0 <= (time_index + 1) mod UINT64_MOD <= time_index + 1).
  { intros Hi. split; [apply Z.mod_pos_bound; by unfold UINT64_MOD|].
    apply Z.mod_le; [lia|by unfold UINT64_MOD]. }
  destruct called.
  - destruct (increment (grow (mSuccessfullCalls api) time_index) time_index)
      as [s'|] eqn:Hinc; [|done].
    cbn [mbind option_bind]. intros [= <-]. cbn [mSuccessfullCalls mRateLimitedCalls].
    apply increment_length in Hinc as [Hi Hlen]. rewrite Hlen, Hd, <- Hsame. clear Hlen Hd.
    rewrite Hs in Hi |- *. specialize (Hmod (proj1 Hi)).
    destruct (Z.leb_spec (Z.of_nat (length (mSuccessfullCalls api))) time_index); lia.
  - destruct (increment (grow (mRateLimitedCalls api) time_index) time_index)
      as [d'|] eqn:Hinc; [|done].
    cbn [mbind option_bind]. intros [= <-]. cbn [mSuccessfullCalls mRateLimitedCalls].
    apply increment_length in Hinc as [Hi Hlen]. rewrite Hlen, Hs, <- Hsame. clear Hlen Hs.
    rewrite Hd in Hi |- *. specialize (Hmod (proj1 Hi)).
    destruct (Z.leb_spec (Z.of_nat (length (mSuccessfullCalls api))) time_index); lia.
Qed.

Lemma record_all_lengths calls : forall api api',
  length (mSuccessfullCalls api) = length (mRateLimitedCalls api) ->
  record_all api calls = Some api' ->
  length (mSuccessfullCalls api') = length (mRateLimitedCalls api') /\
  (length (mSuccessfullCalls api) <= length (mSuccessfullCalls api'))%nat /\
  (length (mRateLimitedCalls api) <= length (mRateLimitedCalls api'))%nat.
Proof.
  induction calls as [|[called time_index] calls IH]; intros api api' Hsame.
  { intros [= <-]. split; [done|]. split; lia. }
  cbn [record_all]. destruct (record api called time_index) as [api1|] eqn:Hrec; [|done].
  cbn [mbind option_bind]. intros Hrest.
  destruct (record_lengths _ _ _ _ Hsame Hrec) as [Hs Hd].
  destruct (IH api1 api') as (Hsame' & Hs' & Hd'); [lia|done|].
  split; [done|]. split; lia.
Qed.

Lemma grow_bounded (d : list Z) time_index n :
  0 <= n -> Forall (fun x => 0 <= x <= n) d ->
  Forall (fun x => 0 <= x <= n) (grow d time_index).
Proof.
  intros Hn Hd. unfold grow, deque_resize.
  destruct (Z.of_nat (length d) <=? time_index); [|done].
  apply Forall_resize; [lia|done].
Qed.

Lemma increment_returns (d : list Z) i n :
  Forall (fun x => 0 <= x <= n) d -> n < INT_MAX ->
  0 <= i < Z.of_nat (length d) ->
  exists d', increment d i = Some d' /\ Forall (fun x => 0 <= x <= n + 1) d'.
Proof.
  intros Hd Hn Hi. destruct (lookup_inside d i Hi) as [x Hx].
  pose proof (Forall_lookup_1 _ _ _ _ Hd Hx) as Hxn. cbn in Hxn.
  exists (<[Z.to_nat i := x + 1]> d). unfold increment.
  rewrite array_at_lookup, Hx by lia. cbn [mbind option_bind].
  rewrite int_checked_fits by (unfold is_int, INT_MIN, INT_MAX in *; lia).
  cbn [mbind option_bind]. rewrite array_store_inside by done. split; [done|].
  apply Forall_insert; [|lia].
  eapply Forall_impl; [exact Hd|]. intros y Hy. cbn in Hy. lia.
Qed.

(** The critical section of [call] returns as long as the bucket index
    plus one is a [size_t] and fewer than [INT_MAX] calls were recorded. *)
Lemma record_returns api called time_index n :
  length (mSuccessfullCalls api) = length (mRateLimitedCalls api) ->
  Forall (fun x => 0 <= x <= n) (mSuccessfullCalls api) ->
  Forall (fun x => 0 <= x <= n) (mRateLimitedCalls api) ->
  0 <= n < INT_MAX -> 0 <= time_index -> time_index + 1 < UINT64_MOD ->
  exists api',
    record api called time_index = Some api' /\
    Forall (fun x => 0 <= x <= n + 1) (mSuccessfullCalls api') /\
    Forall (fun x => 0 <= x <= n + 1) (mRateLimitedCalls api').
Proof.
  intros Hsame Hs Hd Hn Hi Hwrap. unfold record.
  pose proof (grow_bounded _ time_index n (proj1 Hn) Hs) as Hs'.
  pose proof (grow_bounded _ time_index n (proj1 Hn) Hd) as Hd'.
  assert (Hweak : forall l : list Z,
             Forall (fun x => 0 <= x <= n) l -> Forall (fun x => 0 <= x <= n + 1) l).
  { intros l Hl. eapply Forall_impl; [exact Hl|]. intros y Hy. cbn in Hy. lia. }
  assert (Hin : forall d : list Z, 0 <= time_index < Z.of_nat (length (grow d time_index))).
  { intros d. rewrite grow_length, Z.mod_small by lia.
    destruct (Z.leb_spec (Z.of_nat (length d)) time_index); lia. }
  destruct called.
  - destruct (increment_returns _ time_index n Hs' (proj2 Hn) (Hin _)) as (s' & -> & Hs'').
    cbn [mbind option_bind]. eexists. split; [done|]. cbn. split; [done|by apply Hweak].
  - destruct (increment_returns _ time_index n Hd' (proj2 Hn) (Hin _)) as (d' & -> & Hd'').
    cbn [mbind option_bind]. eexists. split; [done|]. cbn. split; [by apply Hweak|done].
Qed.

Lemma record_all_returns calls : forall api n,
  length (mSuccessfullCalls api) = length (mRateLimitedCalls api) ->
  Forall (fun x => 0 <= x <= n) (mSuccessfullCalls api) ->
  Forall (fun x => 0 <= x <= n) (mRateLimitedCalls api) ->
  0 <= n -> n + Z.of_nat (length calls) <= INT_MAX ->
  Forall (fun c : bool * Z => 0 <= c.2 /\ c.2 + 1 < UINT64_MOD) calls ->
  exists api', record_all api calls = Some api'.
Proof.
  induction calls as [|[called time_index] calls IH]; intros api n Hsame Hs Hd Hn Hfit Hcalls.
  { by exists api. }
  apply Forall_cons in Hcalls as [[Hi Hwrap] Hcalls]. cbn [length] in Hfit. cbn in Hi, Hwrap.
  destruct (record_returns api called time_index n Hsame Hs Hd) as (api1 & Hrec & Hs1 & Hd1);
    [lia|done|done|].
  destruct (record_lengths _ _ _ _ Hsame Hrec) as [Hls Hld].
  destruct (IH api1 (n + 1)) as [api' Hrun]; [lia|done|done|lia|lia|done|].
  exists api'. cbn [record_all]. rewrite Hrec. done.
Qed.

(** [call] is a call of the limiter followed by one critical section of
    the recorder. *)
Lemma call_records rl api now_slice time_index rl' api' :
  call rl api now_slice time_index = Some (rl', api') ->
  exists called,
    RateLimit.tryAquireRequestTicket rl now_slice = Some (called, rl') /\
    record api called time_index = Some api'.
Proof.
  unfold call.
  destruct (RateLimit.tryAquireRequestTicket rl now_slice) as [[called rl1]|]; [|done].
  cbn [mbind option_bind].
  destruct (record api called time_index) as [api1|] eqn:Hrec; [|done].
  cbn [mbind option_bind]. intros [= <- <-]. exists called. by rewrite Hrec.
Qed.

(** C10. After any sequence of critical sections of [call], from the
    empty recorder, [mSuccessfullCalls] and [mRateLimitedCalls] have the
    same length; a further [call] in bucket [time_index] leaves both with
    length [max (old length) (time_index + 1)], so neither ever shrinks;
    and for every index [i] below the length of [mSuccessfullCalls] the
    subscript [mRateLimitedCalls[i]] that [printStat] evaluates is inside
    the deque. *)
Theorem recorder_deques_same_length calls api :
  record_all new calls = Some api ->
  length (mSuccessfullCalls api) = length (mRateLimitedCalls api) /\
  (forall called time_index api',
     record api called time_index = Some api' ->
     length (mSuccessfullCalls api')
     = (length (mSuccessfullCalls api) `max` Z.to_nat (time_index + 1))%nat /\
     length (mRateLimitedCalls api')
     = (length (mRateLimitedCalls api) `max` Z.to_nat (time_index + 1))%nat) /\
  (forall i, 0 <= i < Z.of_nat (length (mSuccessfullCalls api)) ->
     exists s r, column_successful api i = Some s /\ column_rate_limited api i = Some r).
Proof.
  intros Hrun.
  destruct (record_all_lengths calls new api eq_refl Hrun) as (Hsame & _ & _).
  split; [done|]. split.
  - intros called time_index api'. by apply record_lengths.
  - intros i Hi. unfold column_successful, column_rate_limited.
    rewrite !array_at_lookup by lia.
    destruct (lookup_inside (mSuccessfullCalls api) i) as [s Hs]; [lia|].
    destruct (lookup_inside (mRateLimitedCalls api) i) as [r Hr]; [lia|].
    by exists s, r.
Qed.

Lemma recorder_deques_same_length_witness :
  let calls := [(true, 0); (false, 0); (true, 3); (false, 1); (false, 7)] in
  let api := mk [1; 0; 0; 1; 0; 0; 0; 0] [1; 1; 0; 0; 0; 0; 0; 1] in
  record_all new calls = Some api /\
  length (mSuccessfullCalls api) = length (mRateLimitedCalls api) /\
  (forall called time_index api',
     record api called time_index = Some api' ->
     length (mSuccessfullCalls api')
     = (length (mSuccessfullCalls api) `max` Z.to_nat (time_index + 1))%nat /\
     length (mRateLimitedCalls api')
     = (length (mRateLimitedCalls api) `max` Z.to_nat (time_index + 1))%nat) /\
  (forall i, 0 <= i < Z.of_nat (length (mSuccessfullCalls api)) ->
     exists s r, column_successful api i = Some s /\ column_rate_limited api i = Some r).
Proof.
  intros calls api.
  assert (Hrun : record_all new calls = Some api) by (vm_compute; reflexivity).
  split; [exact Hrun|]. exact (recorder_deques_same_length calls api Hrun).
Defined.

(** ** The last column of [printStat] *)



(** In the first nine rows the unsigned [i - 9] wraps, the clamp at [0]
    has no effect, and the range of [std::accumulate] starts before
    [begin()]. *)
Lemma column_rps_first_rows api i :
  0 <= i < 9 ->
  rolling_first i = UINT64_MOD - 9 + i /\ column_rps api i = None.
Proof.
  intros Hi.
  assert (Hfirst : rolling_first i = UINT64_MOD - 9 + i).
  { unfold rolling_first, UINT64_MOD. Z.div_mod_to_equations. lia. }
  split; [done|]. unfold column_rps, accumulate. rewrite Hfirst.
  unfold to_difference_type, UINT64_MOD.
  destruct (Z.ltb_spec (2 ^ 64 - 9 + i) (2 ^ 63)) as [|_]; [lia|].
  destruct (Z.ltb_spec i (2 ^ 63)) as [_|]; [|lia].
  destruct (Z.leb_spec (2 ^ 64 - 9 + i - 2 ^ 64) (i + 1)) as [_|]; [|lia].
  replace (Z.to_nat (i + 1 - (2 ^ 64 - 9 + i - 2 ^ 64))) with 10%nat by lia.
  cbn [accumulate_from]. unfold array_at.
  destruct (Z.leb_spec 0 (2 ^ 64 - 9 + i - 2 ^ 64)) as [|_]; [lia|done].
Qed.

(** C8 at a recorder with three buckets.  The rolling sums of the
    successes are [3], [4] and [8]; the code computes the start of the
    range of row [0] as [2^64 - 9], which as an iterator offset is [-9],
    and every row's last column reads outside the deque. *)
Theorem rolling_sum_of_first_rows :
  let api := mk [3; 1; 4] [0; 2; 0] in
  map (rolling_sum (mSuccessfullCalls api)) [0; 1; 2] = [3; 4; 8] /\
  rolling_first 0 = 2 ^ 64 - 9 /\
  to_difference_type (rolling_first 0) = -9 /\
  map (column_rps api) [0; 1; 2] = [None; None; None] /\
  printStat api = None.
Proof. vm_compute. repeat split. Qed.

(** ** The recorder as a histogram *)

Lemma sumZ_app (l1 l2 : list Z) : sumZ (l1 ++ l2) = sumZ l1 + sumZ l2.
Proof. induction l1 as [|x l1 IH]; simpl; lia. Qed.

(** A critical section that returns had a bucket index for which
    [time_index + 1] did not wrap. *)
Lemma record_index api called time_index api' :
  length (mSuccessfullCalls api) = length (mRateLimitedCalls api) ->
  record api called time_index = Some api' ->
  0 <= time_index /\
  (Z.of_nat (length (mSuccessfullCalls api)) <= time_index ->
   (time_index + 1) mod UINT64_MOD = time_index + 1).
Proof.
  intros Hsame. unfold record.
  pose proof (grow_length (mSuccessfullCalls api) time_index) as Hs.
  pose proof (grow_length (mRateLimitedCalls api) time_index) as Hd.
  rewrite <- Hsame in Hd.
  assert (Hmod : 0 <= time_index -> 0 <= (time_index + 1) mod UINT64_MOD <= time_index + 1).
  { intros Hi. split; [apply Z.mod_pos_bound; by unfold UINT64_MOD|].
    apply Z.mod_le; [lia|by unfold UINT64_MOD]. }
  destruct called.
  - destruct (increment (grow (mSuccessfullCalls api) time_index) time_index)
      as [s'|] eqn:Hinc; [|done].
    intros _. apply increment_length in Hinc as [Hi _]. rewrite Hs in Hi.
    specialize (Hmod (proj1 Hi)).
    destruct (Z.leb_spec (Z.of_nat (length (mSuccessfullCalls api))) time_index); lia.
  - destruct (increment (grow (mRateLimitedCalls api) time_index) time_index)
      as [d'|] eqn:Hinc; [|done].
    intros _. apply increment_length in Hinc as [Hi _]. rewrite Hd in Hi.
    specialize (Hmod (proj1 Hi)).
    destruct (Z.leb_spec (Z.of_nat (length (mSuccessfullCalls api))) time_index); lia.
Qed.

Lemma grow_as_app (d : list Z) time_index :
  0 <= time_index ->
  (Z.of_nat (length d) <= time_index ->
   (time_index + 1) mod UINT64_MOD = time_index + 1) ->
  grow d time_index = d ++ replicate (Z.to_nat (time_index + 1) - length d) 0.
Proof.
  intros Hi Hwrap. unfold grow, deque_resize.
  destruct (Z.leb_spec (Z.of_nat (length d)) time_index) as [Hshort|Hlong].
  - rewrite Hwrap by done. apply resize_ge. lia.
  - replace (Z.to_nat (time_index + 1) - length d)%nat with 0%nat by lia.
    by rewrite app_nil_r.
Qed.

Lemma lookup_app_zeros (d : list Z) n (i : nat) :
  default 0 ((d ++ replicate n 0) !! i) = default 0 (d !! i).
Proof.
  destruct (Nat.lt_ge_cases i (length d)) as [Hin|Hout].
  - by rewrite lookup_app_l.
  - rewrite lookup_app_r, (lookup_ge_None_2 d i) by done.
    destruct (replicate n 0 !! (i - length d)%nat) as [x|] eqn:Hx; [|done].
    apply lookup_replicate in Hx as [-> _]. done.
Qed.

Lemma increment_lookup (d d' : list Z) time_index (i : nat) :
  increment d time_index = Some d' ->
  default 0 (d' !! i)
  = default 0 (d !! i) + (if Z.of_nat i =? time_index then 1 else 0).
Proof.
  unfold increment. destruct (array_at d time_index) as [x|] eqn:Hx; [|done].
  cbn [mbind option_bind].
  destruct (int_checked (x + 1)) as [x'|] eqn:Hx'; [|done].
  cbn [mbind option_bind]. unfold int_checked in Hx'.
  destruct ((INT_MIN <=? x + 1) && (x + 1 <=? INT_MAX)); [|done].
  injection Hx' as <-.
  pose proof (array_at_inside d time_index x Hx) as Hi.
  rewrite array_store_inside by done. intros [= <-].
  rewrite array_at_lookup in Hx by lia.
  destruct (Z.eqb_spec (Z.of_nat i) time_index) as [<-|Hne].
  - rewrite Nat2Z.id in Hx |- *. rewrite list_lookup_insert_eq by lia.
    rewrite Hx. simpl. lia.
  - rewrite list_lookup_insert_ne by lia. lia.
Qed.

Lemma increment_sum (d d' : list Z) time_index :
  increment d time_index = Some d' -> sumZ d' = sumZ d + 1.
Proof.
  unfold increment. destruct (array_at d time_index) as [x|] eqn:Hx; [|done].
  cbn [mbind option_bind].
  destruct (int_checked (x + 1)) as [x'|] eqn:Hx'; [|done].
  cbn [mbind option_bind]. unfold int_checked in Hx'.
  destruct ((INT_MIN <=? x + 1) && (x + 1 <=? INT_MAX)); [|done].
  injection Hx' as <-.
  pose proof (array_at_inside d time_index x Hx) as Hi.
  rewrite array_store_inside by done. intros [= <-].
  rewrite array_at_lookup in Hx by lia.
  rewrite (sumZ_insert _ _ _ _ Hx). lia.
Qed.

(** One critical section: the bucket [time_index] of one deque goes up by
    one; every other entry keeps its value, entries that did not exist
    counting as [0]. *)
Lemma record_effect api called time_index api' :
  length (mSuccessfullCalls api) = length (mRateLimitedCalls api) ->
  record api called time_index = Some api' ->
  (forall i : nat,
     default 0 (mSuccessfullCalls api' !! i)
     = default 0 (mSuccessfullCalls api !! i)
       + (if Bool.eqb called true && (time_index =? Z.of_nat i) then 1 else 0)) /\
  (forall i : nat,
     default 0 (mRateLimitedCalls api' !! i)
     = default 0 (mRateLimitedCalls api !! i)
       + (if Bool.eqb called false && (time_index =? Z.of_nat i) then 1 else 0)) /\
  sumZ (mSuccessfullCalls api')
  = sumZ (mSuccessfullCalls api) + (if Bool.eqb called true then 1 else 0) /\
  sumZ (mRateLimitedCalls api')
  = sumZ (mRateLimitedCalls api) + (if Bool.eqb called false then 1 else 0).
Proof.
  intros Hsame Hrec.
  destruct (record_index _ _ _ _ Hsame Hrec) as [Hi Hwrap].
  pose proof (grow_as_app (mSuccessfullCalls api) time_index Hi Hwrap) as Hs.
  rewrite Hsame in Hwrap.
  pose proof (grow_as_app (mRateLimitedCalls api) time_index Hi Hwrap) as Hd.
  unfold record in Hrec. rewrite Hs, Hd in Hrec. destruct called; cbn [Bool.eqb andb].
  - destruct (increment _ time_index) as [s'|] eqn:Hinc in Hrec; [|done].
    cbn [mbind option_bind] in Hrec. injection Hrec as <-.
    cbn [mSuccessfullCalls mRateLimitedCalls].
    split; [|split; [|split]].
    + intros i. rewrite (increment_lookup _ _ _ i Hinc), lookup_app_zeros.
      by rewrite (Z.eqb_sym time_index).
    + intros i. rewrite lookup_app_zeros. lia.
    + rewrite (increment_sum _ _ _ Hinc), sumZ_app, sumZ_replicate. lia.
    + rewrite sumZ_app, sumZ_replicate. lia.
  - destruct (increment _ time_index) as [d'|] eqn:Hinc in Hrec; [|done].
    cbn [mbind option_bind] in Hrec. injection Hrec as <-.
    cbn [mSuccessfullCalls mRateLimitedCalls].
    split; [|split; [|split]].
    + intros i. rewrite lookup_app_zeros. lia.
    + intros i. rewrite (increment_lookup _ _ _ i Hinc), lookup_app_zeros.
      by rewrite (Z.eqb_sym time_index).
    + rewrite sumZ_app, sumZ_replicate. lia.
    + rewrite (increment_sum _ _ _ Hinc), sumZ_app, sumZ_replicate. lia.
Qed.

Lemma record_all_effect calls : forall api api',
  length (mSuccessfullCalls api) = length (mRateLimitedCalls api) ->
  record_all api calls = Some api' ->
  Z.of_nat (length (mSuccessfullCalls api'))
  = Z.max (Z.of_nat (length (mSuccessfullCalls api))) (buckets_used calls) /\
  length (mSuccessfullCalls api') = length (mRateLimitedCalls api') /\
  (forall i : nat,
     default 0 (mSuccessfullCalls api' !! i)
     = default 0 (mSuccessfullCalls api !! i) + count_calls true (Z.of_nat i) calls) /\
  (forall i : nat,
     default 0 (mRateLimitedCalls api' !! i)
     = default 0 (mRateLimitedCalls api !! i) + count_calls false (Z.of_nat i) calls) /\
  sumZ (mSuccessfullCalls api') = sumZ (mSuccessfullCalls api) + count_answers true calls /\
  sumZ (mRateLimitedCalls api') = sumZ (mRateLimitedCalls api) + count_answers false calls.
Proof.
  induction calls as [|[called time_index] calls IH]; intros api api' Hsame.
  { intros [= <-]. cbn [buckets_used count_calls count_answers].
    split; [lia|]. split; [done|]. repeat split; intros; lia. }
  cbn [record_all]. destruct (record api called time_index) as [api1|] eqn:Hrec; [|done].
  cbn [mbind option_bind]. intros Hrest.
  destruct (record_lengths _ _ _ _ Hsame Hrec) as [Hls Hld].
  destruct (record_index _ _ _ _ Hsame Hrec) as [Hi _].
  destruct (record_effect _ _ _ _ Hsame Hrec) as (Hs1 & Hd1 & Hss1 & Hsd1).
  destruct (IH api1 api') as (Hlen & Hsame' & Hs & Hd & Hss & Hsd); [lia|done|].
  cbn [buckets_used count_calls count_answers].
  split; [lia|]. split; [done|].
  split; [|split; [|split]].
  - intros i. rewrite Hs, Hs1. lia.
  - intros i. rewrite Hd, Hd1. lia.
  - rewrite Hss, Hss1. lia.
  - rewrite Hsd, Hsd1. lia.
Qed.

Lemma count_answers_total calls :
  count_answers true calls + count_answers false calls = Z.of_nat (length calls).
Proof.
  induction calls as [|[[] i] calls IH]; cbn [count_answers length Bool.eqb]; lia.
Qed.

Lemma buckets_used_nonneg calls : 0 <= buckets_used calls.
Proof. induction calls as [|[c i] calls IH]; cbn [buckets_used]; lia. Qed.


(** X4. The recorder is a histogram of the calls.  After any sequence of
    critical sections of [call] from the empty recorder, both deques have
    one entry per bucket up to the largest bucket index used, entry [i] of
    [mSuccessfullCalls] is the number of calls answered [true] in bucket
    [i], and entry [i] of [mRateLimitedCalls] the number answered
    [false] in bucket [i]. *)
Theorem recorder_is_histogram calls api :
  record_all new calls = Some api ->
  Z.of_nat (length (mSuccessfullCalls api)) = buckets_used calls /\
  Z.of_nat (length (mRateLimitedCalls api)) = buckets_used calls /\
  (forall i, 0 <= i < buckets_used calls ->
     column_successful api i = Some (count_calls true i calls) /\
     column_rate_limited api i = Some (count_calls false i calls)).
Proof.
  intros Hrun.
  destruct (record_all_effect calls new api eq_refl Hrun) as (Hlen & Hsame & Hs & Hd & _ & _).
  cbn [new mSuccessfullCalls length] in Hlen.
  pose proof (buckets_used_nonneg calls) as Hnonneg.
  split; [lia|]. split; [lia|]. intros i Hi.
  unfold column_successful, column_rate_limited. rewrite !array_at_lookup by lia.
  destruct (lookup_inside (mSuccessfullCalls api) i) as [x Hx]; [lia|].
  destruct (lookup_inside (mRateLimitedCalls api) i) as [y Hy]; [lia|].
  specialize (Hs (Z.to_nat i)). specialize (Hd (Z.to_nat i)).
  rewrite Hx in Hs. rewrite Hy in Hd. rewrite Z2Nat.id in Hs, Hd by lia.
  cbn [new mSuccessfullCalls mRateLimitedCalls] in Hs, Hd.
  rewrite lookup_nil in Hs, Hd. cbn in Hs, Hd. rewrite Hx, Hy. split; f_equal; lia.
Qed.

Lemma recorder_is_histogram_witness :
  let calls := [(true, 0); (false, 0); (true, 3); (false, 1); (true, 3)] in
  let api := mk [1; 0; 0; 2] [1; 1; 0; 0] in
  Z.of_nat (length (mSuccessfullCalls api)) = buckets_used calls /\
  Z.of_nat (length (mRateLimitedCalls api)) = buckets_used calls /\
  (forall i, 0 <= i < buckets_used calls ->
     column_successful api i = Some (count_calls true i calls) /\
     column_rate_limited api i = Some (count_calls false i calls)).
Proof.
  intros calls api. apply (recorder_is_histogram calls api). vm_compute. reflexivity.
Defined.

(** X5. The recorder counts every call exactly once: after any sequence
    of critical sections from the empty recorder, the entries of
    [mSuccessfullCalls] add up to the number of calls answered [true],
    those of [mRateLimitedCalls] to the number answered [false], and both
    together to the number of calls. *)
Theorem recorder_counts_every_call calls api :
  record_all new calls = Some api ->
  sumZ (mSuccessfullCalls api) = count_answers true calls /\
  sumZ (mRateLimitedCalls api) = count_answers false calls /\
  sumZ (mSuccessfullCalls api) + sumZ (mRateLimitedCalls api) = Z.of_nat (length calls).
Proof.
  intros Hrun.
  destruct (record_all_effect calls new api eq_refl Hrun) as (_ & _ & _ & _ & Hs & Hd).
  cbn [new mSuccessfullCalls mRateLimitedCalls sumZ] in Hs, Hd.
  pose proof (count_answers_total calls). lia.
Qed.

Lemma recorder_counts_every_call_witness :
  let calls := [(true, 0); (false, 0); (true, 3); (false, 1); (true, 3)] in
  let api := mk [1; 0; 0; 2] [1; 1; 0; 0] in
  sumZ (mSuccessfullCalls api) = count_answers true calls /\
  sumZ (mRateLimitedCalls api) = count_answers false calls /\
  sumZ (mSuccessfullCalls api) + sumZ (mRateLimitedCalls api) = Z.of_nat (length calls).
Proof.
  intros calls api. apply (recorder_counts_every_call calls api). vm_compute. reflexivity.
Defined.

(** X6. The critical section of [call] never runs into undefined
    behaviour as long as every bucket index is non-negative with
    [time_index + 1] still a [size_t], and at most [INT_MAX] calls are
    recorded: every sequence of such critical sections returns. *)
Theorem recorder_never_faults calls :
  Forall (fun c : bool * Z => 0 <= c.2 /\ c.2 + 1 < UINT64_MOD) calls ->
  Z.of_nat (length calls) <= INT_MAX ->
  exists api, record_all new calls = Some api.
Proof.
  intros Hcalls Hfew.
  apply (record_all_returns calls new 0); cbn [new mSuccessfullCalls mRateLimitedCalls];
    [done|done|done|lia|lia|done].
Qed.

Lemma recorder_never_faults_witness :
  exists api, record_all new [(true, 0); (false, 12); (true, 3)] = Some api.
Proof.
  apply (recorder_never_faults [(true, 0); (false, 12); (true, 3)]).
  - repeat constructor; unfold UINT64_MOD; simpl; lia.
  - unfold INT_MAX. simpl. lia.
Defined.

Lemma call_all_decompose calls : forall rl api rl' api',
  call_all rl api calls = Some (rl', api') ->
  exists bs,
    RateLimit.run rl calls.*1 = Some (bs, rl') /\
    record_all api (zip bs calls.*2) = Some api'.
Proof.
  induction calls as [|[now_slice time_index] calls IH]; intros rl api rl' api'.
  { intros [= <- <-]. by exists []. }
  cbn [call_all]. destruct (call rl api now_slice time_index) as [[rl1 api1]|] eqn:Hcall;
    [|done].
  cbn [mbind option_bind]. intros Hrest.
  destruct (call_records _ _ _ _ _ _ Hcall) as (called & Hlimiter & Hrec).
  destruct (IH _ _ _ _ Hrest) as (bs & Hrun & Hrecs).
  exists (called :: bs). cbn [fmap list_fmap fst snd RateLimit.run zip zip_with record_all].
  rewrite Hlimiter. cbn [mbind option_bind]. rewrite Hrun. cbn [mbind option_bind].
  rewrite Hrec. cbn [mbind option_bind]. done.
Qed.

(** X7. [call] after [call], from a new limiter and the empty recorder:
    the limiter goes through the calls as [tryAquireRequestTicket] alone
    would, the recorder holds the limiter's answers bucket by bucket, the
    successes it holds add up to the number of calls the limiter admitted,
    and successes and denials together to the number of calls. *)
Theorem calls_are_limited_then_recorded maxRPS now_slice calls rl api :
  call_all (RateLimit.new maxRPS now_slice) new calls = Some (rl, api) ->
  exists bs,
    RateLimit.run (RateLimit.new maxRPS now_slice) calls.*1 = Some (bs, rl) /\
    record_all new (zip bs calls.*2) = Some api /\
    sumZ (mSuccessfullCalls api) = count_answers true (zip bs calls.*2) /\
    sumZ (mSuccessfullCalls api) + sumZ (mRateLimitedCalls api)
    = Z.of_nat (length calls).
Proof.
  intros Hcalls. destruct (call_all_decompose _ _ _ _ _ Hcalls) as (bs & Hrun & Hrec).
  exists bs. split; [done|]. split; [done|].
  destruct (record_all_effect _ new api eq_refl Hrec) as (_ & _ & _ & _ & Hs & Hd).
  cbn [new mSuccessfullCalls mRateLimitedCalls sumZ] in Hs, Hd.
  split; [lia|].
  pose proof (count_answers_total (zip bs calls.*2)) as Htotal.
  assert (Hlen : length bs = length calls).
  { clear -Hrun. revert Hrun. generalize (RateLimit.new maxRPS now_slice).
    revert bs. induction calls as [|[t i] calls IH]; intros bs rl0.
    - cbn. by intros [= <- _].
    - cbn [fmap list_fmap fst RateLimit.run].
      destruct (RateLimit.tryAquireRequestTicket rl0 t) as [[b rl1]|]; [|done].
      cbn [mbind option_bind].
      destruct (RateLimit.run rl1 calls.*1) as [[bs' rl2]|] eqn:Hrest; [|done].
      cbn [mbind option_bind]. intros [= <- ->]. cbn [length]. f_equal.
      by apply (IH bs' rl1). }
  rewrite length_zip_with, length_fmap, Hlen in Htotal. lia.
Qed.

Lemma calls_are_limited_then_recorded_witness :
  let calls := [(5000, 0); (5000, 0); (5000, 0); (5450, 4)] in
  let rl := RateLimit.mk 5450 2
              (<[996%nat := 2]> (replicate (Z.to_nat RateLimit.HISTORY_LENGTH) 0)) 2 in
  let api := mk [2; 0; 0; 0; 0] [1; 0; 0; 0; 1] in
  exists bs,
    RateLimit.run (RateLimit.new 2 5000) calls.*1 = Some (bs, rl) /\
    record_all new (zip bs calls.*2) = Some api /\
    sumZ (mSuccessfullCalls api) = count_answers true (zip bs calls.*2) /\
    sumZ (mSuccessfullCalls api) + sumZ (mRateLimitedCalls api)
    = Z.of_nat (length calls).
Proof.
  intros calls rl api.
  apply (calls_are_limited_then_recorded 2 5000 calls rl api). vm_compute. reflexivity.
Defined.

(** ** The rows of [printStat] *)





(** X9. In its first nine rows [printStat] reads outside the deque.  For
    a row [i < 9] the unsigned [i - 9] wraps to [2^64 - 9 + i], so
    [std::max<size_t>(0, i - 9)] is that value and not [0]; as an iterator
    offset it is [i - 9], and [std::accumulate] starts before [begin()].
    Hence [printStat] has no defined result on any recorder that holds a
    bucket. *)
Theorem printStat_first_rows_out_of_range api i :
  0 <= i < 9 ->
  rolling_first i = UINT64_MOD - 9 + i /\
  to_difference_type (rolling_first i) = i - 9 /\
  column_rps api i = None /\
  (mSuccessfullCalls api <> [] -> printStat api = None).
Proof.
  intros Hi. destruct (column_rps_first_rows api i Hi) as [Hfirst Hrps].
  split; [done|]. split; [|split; [done|]].
  - rewrite Hfirst. unfold to_difference_type, UINT64_MOD.
    destruct (Z.ltb_spec (2 ^ 64 - 9 + i) (2 ^ 63)); lia.
  - intros Hrows. unfold printStat.
    destruct (mSuccessfullCalls api) as [|x l] eqn:Hl; [done|].
    assert (Hrow : printStat_row api 0 = None).
    { unfold printStat_row.
      destruct (column_rps_first_rows api 0) as [_ ->]; [lia|].
      destruct (column_successful api 0); [|done].
      by destruct (column_rate_limited api 0). }
    rewrite seqZ_cons by (cbn [length]; lia). cbn [mapM]. by rewrite Hrow.
Qed.

Lemma printStat_first_rows_out_of_range_witness :
  let api := mk [3; 1; 4] [0; 2; 0] in
  rolling_first 2 = UINT64_MOD - 9 + 2 /\
  to_difference_type (rolling_first 2) = 2 - 9 /\
  column_rps api 2 = None /\
  (mSuccessfullCalls api <> [] -> printStat api = None).
Proof.
  intros api. apply (printStat_first_rows_out_of_range api 2). lia.
Defined.

End Recorder.

(** ** The lift *)

Section Elevator.
Import Lift.

Lemma main_loop_not_good fuel n_floors l input :
  main_loop fuel n_floors l input false = Some (l, []).
Proof. by destruct fuel. Qed.

(** A lift on its way, [S k] floors from its destination: the body runs
    [S k] times, prints an arrival each time, and leaves the lift at its
    destination with the door about to open. *)
Lemma main_loop_moving n_floors n input k : forall fuel c,
  Z.of_nat (S k) = Z.abs (n - c) ->
  main_loop (S k + fuel) n_floors (mk c n lift_state_moving) input true
  = '(l, out) ← main_loop fuel n_floors (mk n n lift_state_open) input true;
    Some (l, climb c (c <? n) (S k) ++ out).
Proof.
  induction k as [|k IH]; intros fuel c Hdist.
  - cbn [Nat.add main_loop iteration lift_state current_floor destination_floor climb].
    destruct (Z.ltb_spec c n) as [Hup|Hdown].
    + replace (c + 1) with n by lia. rewrite Z.eqb_refl. done.
    + destruct (Z.ltb_spec n c) as [_|]; [|lia].
      replace (c - 1) with n by lia. rewrite Z.eqb_refl. done.
  - change (S (S k) + fuel)%nat with (S (S k + fuel)).
    cbn [main_loop iteration lift_state current_floor destination_floor].
    cbn [climb]. destruct (Z.ltb_spec c n) as [Hup|Hdown].
    + destruct (Z.eqb_spec (c + 1) n) as [|_]; [lia|].
      rewrite (IH fuel (c + 1)) by lia.
      destruct (Z.ltb_spec (c + 1) n) as [_|]; [|lia].
      by destruct (main_loop fuel n_floors (mk n n lift_state_open) input true) as [[l out]|].
    + destruct (Z.ltb_spec n c) as [_|]; [|lia].
      destruct (Z.eqb_spec (c - 1) n) as [|_]; [lia|].
      rewrite (IH fuel (c - 1)) by lia.
      destruct (Z.ltb_spec (c - 1) n) as [|_]; [lia|].
      by destruct (main_loop fuel n_floors (mk n n lift_state_open) input true) as [[l out]|].
Qed.

(** The door: two runs of the body, opening and closing. *)
Lemma main_loop_door n_floors c d input fuel :
  main_loop (S (S fuel)) n_floors (mk c d lift_state_open) input true
  = '(l, out) ← main_loop fuel n_floors (mk c d lift_state_idle) input true;
    Some (l, [Opened; Closed] ++ out).
Proof.
  cbn [main_loop iteration lift_state current_floor destination_floor].
  by destruct (main_loop fuel n_floors (mk c d lift_state_idle) input true) as [[l out]|].
Qed.

(** The loop, from an idle lift, prints what [session] says and ends within
    [1 + length input * (n_floors + 2)] runs of its body. *)
Lemma main_loop_session n_floors input : forall fuel c d,
  1 <= c <= n_floors ->
  (1 + length input * Z.to_nat (n_floors + 2) <= fuel)%nat ->
  exists l,
    main_loop fuel n_floors (mk c d lift_state_idle) input true
    = Some (l, (session n_floors c input).1) /\
    current_floor l = (session n_floors c input).2.
Proof.
  induction input as [|[n good] input IH]; intros fuel c d Hc Hfuel.
  { destruct fuel as [|fuel]; [cbn in Hfuel; lia|].
    cbn [main_loop iteration lift_state extract session fst snd].
    cbn [orb Z.ltb Z.compare]. rewrite main_loop_not_good. cbn [mbind option_bind].
    by eexists. }
  cbn [length] in Hfuel. rewrite Nat.mul_succ_l in Hfuel.
  destruct fuel as [|fuel]; [lia|].
  cbn [main_loop iteration lift_state extract session].
  destruct good; cbn [negb].
  2:{ destruct ((n <? 1) || (n_floors <? n)); [|destruct (current_floor _ =? n)];
        rewrite main_loop_not_good; cbn [mbind option_bind fst snd]; by eexists. }
  destruct ((n <? 1) || (n_floors <? n)) eqn:Hvalid.
  - destruct (IH fuel c d Hc) as (l & Hrun & Hfloor); [lia|].
    rewrite Hrun. cbn [mbind option_bind].
    destruct (session n_floors c input) as [out final]. by exists l.
  - apply orb_false_iff in Hvalid as [Hlo Hhi].
    apply Z.ltb_ge in Hlo. apply Z.ltb_ge in Hhi.
    cbn [current_floor destination_floor].
    destruct (Z.eqb_spec c n) as [->|Hne].
    + destruct fuel as [|[|fuel]]; [lia|lia|]. rewrite main_loop_door.
      destruct (IH fuel n d) as (l & Hrun & Hfloor); [lia|lia|].
      rewrite Hrun. cbn [mbind option_bind].
      destruct (session n_floors n input) as [out final]. exists l.
      unfold arrivals. rewrite Z.sub_diag. cbn [Z.abs Z.to_nat climb app]. done.
    + assert (Hk : exists k, Z.of_nat (S k) = Z.abs (n - c)).
      { exists (Z.to_nat (Z.abs (n - c) - 1)). lia. }
      destruct Hk as [k Hk].
      assert (Hsplit : exists fuel', fuel = (S k + S (S fuel'))%nat /\
                (1 + length input * Z.to_nat (n_floors + 2) <= fuel')%nat).
      { exists (fuel - S k - 2)%nat. clear IH.
        set (budget := (length input * Z.to_nat (n_floors + 2))%nat) in *.
        clearbody budget. lia. }
      destruct Hsplit as (fuel' & -> & Hfuel').
      rewrite (main_loop_moving n_floors n input k _ c Hk), main_loop_door.
      destruct (IH fuel' n n) as (l & Hrun & Hfloor); [lia|done|].
      rewrite Hrun. cbn [mbind option_bind].
      destruct (session n_floors n input) as [out final]. exists l.
      unfold arrivals. rewrite <- Hk, Nat2Z.id. cbn [fst snd] in *.
      split; [|done]. done.
Qed.

(** The loop of [main] has fuel to spare. *)
Lemma main_session n_floors input :
  5 <= n_floors <= 20 ->
  main 5 n_floors input = Some (0, (session n_floors 1 input).1 ++ [Terminated]).
Proof.
  intros Hfloors. unfold main. cbn [Z.eqb Pos.eqb negb].
  destruct (Z.ltb_spec n_floors 5) as [|_]; [lia|].
  destruct (Z.ltb_spec 20 n_floors) as [|_]; [lia|]. cbn [orb].
  destruct (main_loop_session n_floors input (main_fuel n_floors input) 1 1)
    as (l & -> & _); [lia| |done].
  unfold main_fuel.
  assert (1 <= Z.to_nat (n_floors + 2))%nat by lia. lia.
Qed.

Lemma climb_range k : forall c up f,
  Arrived f ∈ climb c up k ->
  if up then c < f <= c + Z.of_nat k else c - Z.of_nat k <= f < c.
Proof.
  induction k as [|k IH]; intros c up f; cbn [climb].
  { intros Hf. by apply elem_of_nil in Hf. }
  intros Hf. apply elem_of_cons in Hf as [[= ->]|Hf].
  - destruct up; lia.
  - specialize (IH _ up f Hf). destruct up; lia.
Qed.

Lemma arrivals_range c n f :
  Arrived f ∈ arrivals c n -> Z.min c n <= f <= Z.max c n.
Proof.
  unfold arrivals. intros Hf. apply climb_range in Hf.
  destruct (Z.ltb_spec c n); lia.
Qed.

Lemma session_floors n_floors input : forall c f,
  1 <= c <= n_floors ->
  Arrived f ∈ (session n_floors c input).1 -> 1 <= f <= n_floors.
Proof.
  induction input as [|[n good] input IH]; intros c f Hc; cbn [session].
  { cbn. intros Hf. apply list_elem_of_singleton in Hf. done. }
  destruct good; cbn [negb].
  2:{ cbn. intros Hf. apply list_elem_of_singleton in Hf. done. }
  destruct ((n <? 1) || (n_floors <? n)) eqn:Hvalid.
  - specialize (IH c f Hc). destruct (session n_floors c input) as [out final].
    cbn [fst] in *. intros Hf. apply elem_of_cons in Hf as [|Hf]; [done|]. by apply IH.
  - apply orb_false_iff in Hvalid as [Hlo Hhi].
    apply Z.ltb_ge in Hlo. apply Z.ltb_ge in Hhi.
    specialize (IH n f). destruct (session n_floors n input) as [out final].
    cbn [fst] in *. intros Hf. apply elem_of_cons in Hf as [|Hf]; [done|].
    apply elem_of_app in Hf as [Hf|Hf]; [apply arrivals_range in Hf; lia|].
    apply elem_of_app in Hf as [Hf|Hf]; [|apply IH; [lia|done]].
    apply elem_of_cons in Hf as [|Hf]; [done|].
    by apply list_elem_of_singleton in Hf.
Qed.

Lemma doors_closed_climb k : forall c up out,
  doors_closed (climb c up k ++ out) = doors_closed out.
Proof.
  induction k as [|k IH]; intros c up out; [done|]. cbn [climb app doors_closed]. apply IH.
Qed.

Lemma session_doors n_floors input : forall c out',
  doors_closed out' = true ->
  doors_closed ((session n_floors c input).1 ++ out') = true.
Proof.
  induction input as [|[n good] input IH]; intros c out' Hout'; cbn [session].
  { done. }
  destruct good; cbn [negb]; [|done].
  destruct ((n <? 1) || (n_floors <? n)).
  - specialize (IH c out' Hout'). destruct (session n_floors c input) as [out final].
    cbn [fst app doors_closed] in *. done.
  - specialize (IH n out' Hout'). destruct (session n_floors n input) as [out final].
    cbn [fst] in *. cbn [app doors_closed]. unfold arrivals.
    rewrite <- app_assoc, doors_closed_climb. cbn [app doors_closed]. done.
Qed.

Lemma session_cut n_floors pre : forall c n rest,
  session n_floors c (pre ++ (n, false) :: rest) = session n_floors c pre.
Proof.
  induction pre as [|[m good] pre IH]; intros c n rest; [done|].
  cbn [app session]. destruct good; cbn [negb]; [|done].
  destruct ((m <? 1) || (n_floors <? m)); by rewrite IH.
Qed.

(** X10. With four arguments and [5 <= n_floors <= 20] the lift program
    serves the commands one by one and ends when the input does.  It
    prints what [session] describes from floor [1]: for each floor number
    from [1] to [n_floors] read while the input stays good, an arrival at
    every floor on the way, then the door opening and closing; other
    numbers are passed over; then it prints that it is terminated and
    returns [0]. *)
Theorem lift_serves_commands n_floors input :
  5 <= n_floors <= 20 ->
  main 5 n_floors input = Some (0, (session n_floors 1 input).1 ++ [Terminated]).
Proof.
  intros Hfloors. unfold main. cbn [Z.eqb Pos.eqb negb].
  destruct (Z.ltb_spec n_floors 5) as [|_]; [lia|].
  destruct (Z.ltb_spec 20 n_floors) as [|_]; [lia|]. cbn [orb].
  destruct (main_loop_session n_floors input (main_fuel n_floors input) 1 1)
    as (l & -> & _); [lia| |done].
  unfold main_fuel.
  assert (1 <= Z.to_nat (n_floors + 2))%nat by lia. lia.
Qed.

Lemma lift_serves_commands_witness :
  main 5 7 [(3, true); (0, true); (3, true); (1, true); (6, false)]
  = Some (0, (session 7 1 [(3, true); (0, true); (3, true); (1, true); (6, false)]).1
             ++ [Terminated]).
Proof.
  apply (lift_serves_commands 7 [(3, true); (0, true); (3, true); (1, true); (6, false)]).
  lia.
Defined.

(** X11. The lift program always ends, on every finite input.  It returns
    [1] having printed only the usage text when it is not given four
    arguments or the number of floors is not between [5] and [20];
    otherwise it returns [0] and the last thing it prints is that it is
    terminated. *)
Theorem lift_exit_status argc n_floors input :
  exists code out,
    main argc n_floors input = Some (code, out) /\
    (argc <> 5 \/ n_floors < 5 \/ 20 < n_floors -> code = 1 /\ out = [Usage]) /\
    (argc = 5 /\ 5 <= n_floors <= 20 -> code = 0 /\ list.last out = Some Terminated).
Proof.
  destruct (Z.eq_dec argc 5) as [->|Hargc].
  - destruct (Z.ltb_spec n_floors 5) as [Hlow|Hlow'].
    { exists 1, [Usage]. unfold main. cbn [Z.eqb Pos.eqb negb].
      destruct (Z.ltb_spec n_floors 5) as [_|]; [|lia]. cbn [orb].
      split; [done|]. split; [done|lia]. }
    destruct (Z.ltb_spec 20 n_floors) as [Hhigh|Hhigh'].
    { exists 1, [Usage]. unfold main. cbn [Z.eqb Pos.eqb negb].
      destruct (Z.ltb_spec 20 n_floors) as [_|]; [|lia]. rewrite orb_true_r.
      split; [done|]. split; [done|lia]. }
    exists 0, ((session n_floors 1 input).1 ++ [Terminated]).
    rewrite main_session by lia. split; [done|]. split; [lia|].
    intros _. split; [done|]. apply last_snoc.
  - exists 1, [Usage]. unfold main.
    destruct (Z.eqb_spec argc 5) as [|_]; [done|]. cbn [negb].
    split; [done|]. split; [done|]. intros [? _]. done.
Qed.

(** X12. The lift never leaves the building: every floor at which the
    program reports an arrival is between [1] and [n_floors]. *)
Theorem lift_floors_in_range n_floors input code out f :
  5 <= n_floors <= 20 ->
  main 5 n_floors input = Some (code, out) ->
  Arrived f ∈ out -> 1 <= f <= n_floors.
Proof.
  intros Hfloors. rewrite main_session by done. intros [= _ <-] Hf.
  apply elem_of_app in Hf as [Hf|Hf].
  - apply (session_floors n_floors input 1 f); [lia|done].
  - by apply list_elem_of_singleton in Hf.
Qed.

Lemma lift_floors_in_range_witness :
  let out := [Waiting; Arrived 2; Arrived 3; Arrived 4; Arrived 5; Opened; Closed;
              Waiting; Arrived 4; Arrived 3; Arrived 2; Opened; Closed;
              Waiting; Terminated] in
  main 5 7 [(5, true); (2, true)] = Some (0, out) /\ 1 <= 4 <= 7.
Proof.
  intros out.
  assert (Hmain : main 5 7 [(5, true); (2, true)] = Some (0, out))
    by (vm_compute; reflexivity).
  split; [exact Hmain|].
  apply (lift_floors_in_range 7 [(5, true); (2, true)] 0 out 4).
  - lia.
  - exact Hmain.
  - apply list_elem_of_In. simpl. auto 20.
Defined.

(** X13. The door never stays open: in what the program prints, every
    opening of the door is directly followed by its closing. *)
Theorem lift_doors_closed argc n_floors input code out :
  main argc n_floors input = Some (code, out) ->
  doors_closed out = true.
Proof.
  unfold main.
  destruct (negb (argc =? 5)) eqn:Hargc; [by intros [= _ <-]|].
  destruct ((n_floors <? 5) || (20 <? n_floors)) eqn:Hfloors; [by intros [= _ <-]|].
  apply negb_false_iff, Z.eqb_eq in Hargc.
  apply orb_false_iff in Hfloors as [Hlo Hhi].
  apply Z.ltb_ge in Hlo. apply Z.ltb_ge in Hhi.
  pose proof (main_session n_floors input (conj Hlo Hhi)) as Hmain.
  unfold main in Hmain. cbn [Z.eqb Pos.eqb negb] in Hmain.
  destruct (Z.ltb_spec n_floors 5) as [|_]; [lia|].
  destruct (Z.ltb_spec 20 n_floors) as [|_]; [lia|]. cbn [orb] in Hmain.
  rewrite Hmain. intros [= _ <-]. by apply session_doors.
Qed.

Lemma lift_doors_closed_witness :
  let out := [Waiting; Arrived 2; Opened; Closed; Waiting; Opened; Closed;
              Waiting; Terminated] in
  main 5 5 [(2, true); (2, true)] = Some (0, out) /\ doors_closed out = true.
Proof.
  intros out.
  assert (Hmain : main 5 5 [(2, true); (2, true)] = Some (0, out))
    by (vm_compute; reflexivity).
  split; [exact Hmain|].
  exact (lift_doors_closed 5 5 [(2, true); (2, true)] 0 out Hmain).
Defined.

(** X14. A number whose extraction leaves the input not good is never
    served, whatever it is, and nothing after it is read: the program
    behaves as if the input had ended just before it.  So a floor number
    that ends the input without a character after it does not move the
    lift. *)
Theorem lift_last_number_not_served argc n_floors pre n rest :
  main argc n_floors (pre ++ (n, false) :: rest) = main argc n_floors pre.
Proof.
  destruct (decide (argc = 5 /\ 5 <= n_floors <= 20)) as [[-> Hfloors]|Hbad].
  - by rewrite !main_session, session_cut by done.
  - unfold main. destruct (Z.eqb_spec argc 5) as [->|_]; [|done]. cbn [negb].
    destruct (Z.ltb_spec n_floors 5) as [|Hlo]; [done|].
    destruct (Z.ltb_spec 20 n_floors) as [|Hhi]; [done|]. exfalso. apply Hbad. lia.
Qed.

End Elevator.

(** ** The unit tests of the repository, on the model *)

(** Clock readings are chosen as the tests sleep: the burst at the start,
    a call every 100 ms, and the last calls 1100 ms after the start. *)

Example unittest1_zerolimit :
  fst <$> RateLimit.run (RateLimit.new 0 5000) (replicate 10 5000)
  = Some (replicate 10 false).
Proof. vm_compute. reflexivity. Qed.

Example unittest2_onelimit :
  fst <$> RateLimit.run (RateLimit.new 1 5000)
    (replicate 11 5000 ++ [5100; 5200; 5300; 5400; 5500; 5600; 5700; 5800; 5900] ++ [6100])
  = Some ([true] ++ replicate 10 false ++ replicate 9 false ++ [true]).
Proof. vm_compute. reflexivity. Qed.

Example unittest3_tenlimit :
  fst <$> RateLimit.run (RateLimit.new 10 5000)
    (replicate 11 5000 ++ [5100; 5200; 5300; 5400; 5500; 5600; 5700; 5800; 5900]
     ++ replicate 11 6100)
  = Some (replicate 10 true ++ [false] ++ replicate 9 false
          ++ replicate 10 true ++ [false]).
Proof. vm_compute. reflexivity. Qed.
